(** * nestjs-restcall: the REST template pipeline and its default policy set

    A shallow embedding of
    - [src/rest-template/services/abs-rest-template.service.ts]
      (the retry-capable [AbstractRestTemplate]) and of its twin without the
      retry branch,
    - [src/rest-template/services/rest-template.service.ts]
      ([RestTemplateService], the default hooks),
    - [src/rest-template/helpers/rest-template.util.ts] ([buildUrl]).

    Conventions.  A JavaScript property that may be missing or [undefined] is
    an [option]; [a ?? b] is [from_option id b a] (or a [match]); [a?.f] is a
    [bind] in the option monad.  Values of type [unknown] are [JsValue]s.
    A value caught by [catch (error)] is [undefined], [null], or a value
    whose properties can be read; the latter is taken at the type the code
    casts it to ([AxiosError], every field optional), a thrown string or
    number being the error with no field set.  Reading a property of
    [undefined] or [null] throws the runtime's [TypeError].  A string is a
    sequence of bytes: for the URL helpers, the UTF-8 encoding of the
    JavaScript string after the platform's conversion to well-formed Unicode
    (a lone surrogate reads as U+FFFD). *)

From Stdlib Require Import ZArith NArith Ascii String.
From stdpp Require Import gmap strings list fin_maps pretty.
From Equations Require Import Equations.

Open Scope Z_scope.
Open Scope string_scope.

(** ** Data model *)

(** Values the code handles at type [unknown] (bodies, params, details). *)
Inductive JsValue : Type :=
| JsNull
| JsBool (b : bool)
| JsNumber (n : Z)
| JsString (s : string)
| JsObject (fields : JsFields)
with JsFields : Type :=
| JsNoField
| JsField (key : string) (value : JsValue) (rest : JsFields).

(** [enum ResponseMode { data = 'data', full = 'full' }] *)
Inductive ResponseMode : Type := ResponseMode_data | ResponseMode_full.

#[global] Instance ResponseMode_eq_dec : EqDecision ResponseMode.
Proof. solve_decision. Defined.

(** axios' [Method] is a string. *)
Abbreviation Method := string (only parsing).

(** [RawAxiosRequestHeaders]: a mapping of header names to values. *)
Abbreviation Headers := (gmap string string) (only parsing).

Record RequestContext : Type := {
  token : option string;
  scopes : option (list string);
  requestId : option string;
}.

Record RestRequestOption : Type := {
  opt_params : option JsValue;
  opt_headers : option Headers;
  timeoutMs : option Z;
  context : option RequestContext;
  responseMode : option ResponseMode;
}.

(** [AxiosRequestConfig], restricted to the keys the template reads or
    writes. *)
Record AxiosRequestConfig : Type := {
  headers : option Headers;
  params : option JsValue;
  timeout : option Z;
  method : option Method;
  url : option string;
  data : option JsValue;
}.

(** [AxiosResponse<T>]: the response envelope. *)
Record AxiosResponse : Type := {
  resp_data : JsValue;
  resp_status : Z;
  resp_statusText : string;
  resp_headers : Headers;
}.

Record UpstreamErrorBody : Type := {
  body_message : option string;
  body_code : option (string + Z);
  body_details : option JsValue;
}.

(** The response carried by a failure: [AxiosResponse<UpstreamErrorBody>]. *)
Record ErrorResponse : Type := {
  status : option Z;
  err_data : option UpstreamErrorBody;
}.

(** [AxiosError<UpstreamErrorBody>], as the catch blocks read it. *)
Record AxiosError : Type := {
  err_message : option string;
  response : option ErrorResponse;
}.

(** What [catch (error)] can receive: anything that was thrown or rejected
    with. *)
Inductive Caught : Type :=
| CaughtUndefined
| CaughtNull
| CaughtValue (ax : AxiosError).

(** [ax.response?.data] *)
Definition response_data (ax : AxiosError) : option UpstreamErrorBody :=
  response ax ≫= err_data.

(** ** The template interface

    [AbstractRestTemplate] has three abstract hooks and a transport handle
    given to the constructor.  [W] is whatever the hooks and the transport
    keep between calls (a token cache, the network); [Exn] is what a call
    can raise: what the error mapper raises, and the runtime's [TypeError].
    A hook that may throw returns [inl] of the thrown value.
    [mapAndThrowError] has return type [never], the empty type: [inr] is a
    normal return, which no implementation can produce. *)
Definition never : Type := Empty_set.

Class RestTemplate (W Exn : Type) : Type := {
  getDefaultHeaders : Headers;
  applyAuth :
    AxiosRequestConfig → option RequestContext → W →
    (Caught + AxiosRequestConfig) * W;
  mapAndThrowError : Caught → Exn + never;
  http_request : AxiosRequestConfig → W → (Caught + AxiosResponse) * W;
  TypeError : Exn;
}.

(** ** Tasks: state, a call trace, and exceptions

    An [async] body is a function of the state that returns either a thrown
    value ([inl]) or a result ([inr]).  The state carries the collaborators'
    world and a trace of the calls made into the hooks and the transport. *)
Inductive Event : Type :=
| CallApplyAuth (config : AxiosRequestConfig) (ctx : option RequestContext)
| CallTransport (config : AxiosRequestConfig)
| CallMapAndThrowError (error : Caught).

Record PState (W : Type) : Type := mkPState {
  world : W;
  trace : list Event;
}.
Arguments mkPState {W} _ _.
Arguments world {W} _.
Arguments trace {W} _.

Definition Task (W E A : Type) : Type := PState W → (E + A) * PState W.

Definition task_ret {W E A} (a : A) : Task W E A := λ s, (inr a, s).

Definition throw {W E A} (e : E) : Task W E A := λ s, (inl e, s).

Definition task_bind {W E A B} (c : Task W E A) (k : A → Task W E B)
  : Task W E B :=
  λ s, match c s with
       | (inl e, s') => (inl e, s')
       | (inr a, s') => k a s'
       end.

(** [try { body } catch (error) { handler }] *)
Definition try_catch {W E X A} (body : Task W E A) (handler : E → Task W X A)
  : Task W X A :=
  λ s, match body s with
       | (inl error, s') => handler error s'
       | (inr a, s') => (inr a, s')
       end.

Notation "'let*' x := c 'in' k" := (task_bind c (λ x, k))
  (at level 10, x name, c at level 100, k at level 200,
   format "'[v' 'let*'  x  :=  c  'in' '/' k ']'").

Definition record_call {W E} (ev : Event) : Task W E unit :=
  λ s, (inr tt, mkPState (world s) (trace s ++ [ev])).

(** Run a collaborator on the world. *)
Definition run_on_world {W E A} (f : W → (E + A) * W) : Task W E A :=
  λ s, let '(r, w) := f (world s) in (r, mkPState w (trace s)).

(** What a verb method resolves to: [T | AxiosResponse<T>]. *)
Inductive Resolved : Type :=
| Body (d : JsValue)
| Envelope (resp : AxiosResponse).

Section Calls.
Context {W Exn : Type} `{!RestTemplate W Exn}.

(** [await this.applyAuth(config, context)] *)
Definition await_applyAuth (config : AxiosRequestConfig)
  (ctx : option RequestContext) : Task W Caught AxiosRequestConfig :=
  let* _ := record_call (CallApplyAuth config ctx) in
  run_on_world (applyAuth config ctx).

(** [await this.http.axiosRef.request(config)] *)
Definition await_axios_request (config : AxiosRequestConfig)
  : Task W Caught AxiosResponse :=
  let* _ := record_call (CallTransport config) in
  run_on_world (http_request config).

(** [this.mapAndThrowError(error)] as a statement of a body of type [A]. *)
Definition call_mapAndThrowError {A} (error : Caught) : Task W Exn A :=
  let* _ := record_call (CallMapAndThrowError error) in
  match mapAndThrowError error with
  | inl exn => throw exn
  | inr returned => match returned with end
  end.

(** [ax.response], for [ax = error as AxiosError]: the cast checks
    nothing, and the read throws on [undefined] and [null]. *)
Definition read_response (ax : Caught) : Exn + option ErrorResponse :=
  match ax with
  | CaughtUndefined | CaughtNull => inl TypeError
  | CaughtValue ax => inr (response ax)
  end.

End Calls.

(** [{ ...a, ...b }] on header objects: the properties of [a] are copied
    into a fresh object, then those of [b], a later write replacing an
    earlier one. *)
Definition copy_properties (source target : Headers) : Headers :=
  map_fold (λ k v acc, <[k := v]> acc) target source.

Definition spread (a b : Headers) : Headers :=
  copy_properties b (copy_properties a ∅).

(** ** The retry-capable template ([abs-rest-template.service.ts]) *)
Module AbstractRestTemplate.
Section Template.
Context {W Exn : Type} `{!RestTemplate W Exn}.

Definition buildBaseConfig (options : option RestRequestOption)
  : AxiosRequestConfig :=
  let mergedHeaders :=
    spread getDefaultHeaders (default ∅ (options ≫= opt_headers)) in
  {| headers := Some mergedHeaders;
     params := options ≫= opt_params;
     timeout := Some (default 10000 (options ≫= timeoutMs));
     method := None;
     url := None;
     data := None |}.

(** The [try] block of [request]. *)
Definition request_try (method : Method) (url : string)
  (body : option JsValue) (options : option RestRequestOption)
  : Task W Caught Resolved :=
  let baseCfg := buildBaseConfig options in
  let* withAuth := await_applyAuth baseCfg (options ≫= context) in
  let finalCfg :=
    {| headers := headers withAuth;
       params := params withAuth;
       timeout := timeout withAuth;
       method := Some method;
       url := Some url;
       data := body |} in
  let* resp := await_axios_request finalCfg in
  task_ret
    (if decide (default ResponseMode_data (options ≫= responseMode)
                = ResponseMode_full)
     then Envelope resp
     else Body (resp_data resp)).

(** [request]; the last parameter is [maxRetryAttempts = 0], [None] when
    the caller passes no argument. *)
Equations? request (method : Method) (url : string) (body : option JsValue)
  (options : option RestRequestOption) (maxRetryAttemptsArg : option Z)
  : Task W Exn Resolved
  by wf (Z.to_nat (default 0 maxRetryAttemptsArg)) lt :=
request method url body options maxRetryAttemptsArg :=
  let maxRetryAttempts := default 0 maxRetryAttemptsArg in
  try_catch (request_try method url body options)
    (λ error,
       let ax := error in
       match read_response ax with
       | inl typeError => throw typeError
       | inr resp =>
           let status := resp ≫= status in
           match decide (status = Some 401 ∧ maxRetryAttempts > 0) with
           | left _ =>
               request method url body options (Some (maxRetryAttempts - 1))
           | right _ => call_mapAndThrowError error
           end
       end).
Proof. simpl. lia. Qed.

Definition get (url : string) (options : option RestRequestOption)
  : Task W Exn Resolved :=
  request "GET" url None options None.

Definition post (url : string) (body : option JsValue)
  (options : option RestRequestOption) : Task W Exn Resolved :=
  request "POST" url body options None.

Definition put (url : string) (body : option JsValue)
  (options : option RestRequestOption) : Task W Exn Resolved :=
  request "PUT" url body options None.

Definition patch (url : string) (body : option JsValue)
  (options : option RestRequestOption) : Task W Exn Resolved :=
  request "PATCH" url body options None.

Definition delete (url : string) (options : option RestRequestOption)
  : Task W Exn Resolved :=
  request "DELETE" url None options None.

End Template.
End AbstractRestTemplate.

(** ** The template without the retry branch (the twin source file) *)
Module AbstractRestTemplatePlain.
Section Template.
Context {W Exn : Type} `{!RestTemplate W Exn}.

Definition buildBaseConfig (options : option RestRequestOption)
  : AxiosRequestConfig :=
  let mergedHeaders :=
    spread getDefaultHeaders (default ∅ (options ≫= opt_headers)) in
  {| headers := Some mergedHeaders;
     params := options ≫= opt_params;
     timeout := Some (default 10000 (options ≫= timeoutMs));
     method := None;
     url := None;
     data := None |}.

Definition request_try (method : Method) (url : string)
  (body : option JsValue) (options : option RestRequestOption)
  : Task W Caught Resolved :=
  let baseCfg := buildBaseConfig options in
  let* withAuth := await_applyAuth baseCfg (options ≫= context) in
  let finalCfg :=
    {| headers := headers withAuth;
       params := params withAuth;
       timeout := timeout withAuth;
       method := Some method;
       url := Some url;
       data := body |} in
  let* resp := await_axios_request finalCfg in
  task_ret
    (if decide (default ResponseMode_data (options ≫= responseMode)
                = ResponseMode_full)
     then Envelope resp
     else Body (resp_data resp)).

Definition request (method : Method) (url : string) (body : option JsValue)
  (options : option RestRequestOption) : Task W Exn Resolved :=
  try_catch (request_try method url body options)
    (λ error, call_mapAndThrowError error).

Definition get (url : string) (options : option RestRequestOption)
  : Task W Exn Resolved :=
  request "GET" url None options.

Definition post (url : string) (body : option JsValue)
  (options : option RestRequestOption) : Task W Exn Resolved :=
  request "POST" url body options.

Definition put (url : string) (body : option JsValue)
  (options : option RestRequestOption) : Task W Exn Resolved :=
  request "PUT" url body options.

Definition patch (url : string) (body : option JsValue)
  (options : option RestRequestOption) : Task W Exn Resolved :=
  request "PATCH" url body options.

Definition delete (url : string) (options : option RestRequestOption)
  : Task W Exn Resolved :=
  request "DELETE" url None options.

End Template.
End AbstractRestTemplatePlain.

(** ** Objects and references

    [applyAuth] of the default template is specified up to object identity,
    so its configuration and header objects live in a store and are passed by
    reference. *)
Abbreviation loc := positive (only parsing).

(** A configuration object; [headers] holds a reference. *)
Record ConfigObj : Type := {
  o_headers : option loc;
  o_params : option JsValue;
  o_timeout : option Z;
  o_method : option Method;
  o_url : option string;
  o_data : option JsValue;
}.

Inductive Obj : Type :=
| ObjHeaders (h : Headers)
| ObjConfig (c : ConfigObj).

Abbreviation Heap := (gmap positive Obj) (only parsing).

(** An object literal evaluates to a reference that was not in use. *)
Definition alloc (o : Obj) (σ : Heap) : loc * Heap :=
  let l := fresh (dom σ) in (l, <[l := o]> σ).

Definition read_config (σ : Heap) (l : loc) : option ConfigObj :=
  match σ !! l with
  | Some (ObjConfig c) => Some c
  | _ => None
  end.

Definition read_headers (σ : Heap) (l : loc) : option Headers :=
  match σ !! l with
  | Some (ObjHeaders h) => Some h
  | _ => None
  end.

(** The configuration a reference denotes, headers included. *)
Definition config_value (σ : Heap) (l : loc) : option AxiosRequestConfig :=
  c ← read_config σ l;
  hs ← match o_headers c with
       | Some h => Some <$> read_headers σ h
       | None => Some None
       end;
  Some {| headers := hs;
          params := o_params c;
          timeout := o_timeout c;
          method := o_method c;
          url := o_url c;
          data := o_data c |}.

(** The header a configuration reference holds under a name. *)
Definition header_of (σ : Heap) (l : loc) (name : string) : option string :=
  v ← config_value σ l;
  hs ← headers v;
  hs !! name.

(** [a ?? b] *)
Definition nullish {A} (a b : option A) : option A :=
  match a with
  | Some x => Some x
  | None => b
  end.
Infix "??" := nullish (at level 61, left associativity).

(** JavaScript truthiness of a [string | undefined]. *)
Definition truthy (s : option string) : bool :=
  match s with
  | Some s => negb (String.eqb s "")
  | None => false
  end.

(** [HttpException] of the host framework: a payload and a status. *)
Record HttpPayload : Type := {
  message : string;
  code : string + Z;
  details : option JsValue;
}.

Record HttpException : Type := {
  getResponse : HttpPayload;
  getStatus : Z;
}.

(** [HttpStatus.BAD_GATEWAY] *)
Definition BAD_GATEWAY : Z := 502.

(** What a call on the default service can raise. *)
Inductive ServiceException : Type :=
| ThrownTypeError
| ThrownHttpException (exn : HttpException).

(** ** The default template ([rest-template.service.ts]) *)
Module RestTemplateService.

Definition getDefaultHeaders : Headers :=
  <["Content-Type" := "application/json"]>
    (<["Accept" := "application/json"]> ∅).

(** [applyAuth] on references.  [None] is a reference that denotes no
    object of the expected kind, which no JavaScript value does. *)
Definition applyAuth (config : loc) (ctx : option RequestContext) (σ : Heap)
  : option (loc * Heap) :=
  if negb (truthy (ctx ≫= token)) then Some (config, σ)
  else
    cfg ← read_config σ config;
    '(source, σ0) ← match o_headers cfg with
                    | Some h => Some (h, σ)
                    | None => Some (alloc (ObjHeaders ∅) σ)
                    end;
    src ← read_headers σ0 source;
    let '(baseHeaders, σ1) := alloc (ObjHeaders (spread ∅ src)) σ0 in
    bh ← read_headers σ1 baseHeaders;
    let '(newHeaders, σ2) :=
      alloc (ObjHeaders
               (<["Authorization" := "Bearer " +:+ default "" (ctx ≫= token)]>
                  (spread ∅ bh))) σ1 in
    Some (alloc (ObjConfig {| o_headers := Some newHeaders;
                              o_params := o_params cfg;
                              o_timeout := o_timeout cfg;
                              o_method := o_method cfg;
                              o_url := o_url cfg;
                              o_data := o_data cfg |}) σ2).

(** [applyAuth] read on values, for callers that do not observe identity
    (the request pipeline). *)
Definition applyAuth_value (config : AxiosRequestConfig)
  (ctx : option RequestContext) : AxiosRequestConfig :=
  if negb (truthy (ctx ≫= token)) then config
  else
    let baseHeaders := spread ∅ (default ∅ (headers config)) in
    {| headers :=
         Some (<["Authorization" := "Bearer " +:+ default "" (ctx ≫= token)]>
                 (spread ∅ baseHeaders));
       params := params config;
       timeout := timeout config;
       method := method config;
       url := url config;
       data := data config |}.

Definition mapAndThrowError (error : Caught) : ServiceException + never :=
  let ax := error in
  match ax with
  | CaughtUndefined | CaughtNull => inl ThrownTypeError
  | CaughtValue ax =>
      let status := default BAD_GATEWAY (response ax ≫= status) in
      let message :=
        default "Upstream request failed"
                ((response_data ax ≫= body_message) ?? err_message ax) in
      let payload :=
        {| message := message;
           code := default (inl "UPSTREAM_ERROR")
                     (response_data ax ≫= body_code);
           details := response_data ax ≫= body_details |} in
      inl (ThrownHttpException {| getResponse := payload;
                                  getStatus := status |})
  end.

(** The service over a transport handle. *)
Definition service {W : Type}
  (http : AxiosRequestConfig → W → (Caught + AxiosResponse) * W)
  : RestTemplate W ServiceException :=
  Build_RestTemplate W ServiceException
    getDefaultHeaders
    (λ config ctx w, (inr (applyAuth_value config ctx), w))
    mapAndThrowError
    http
    ThrownTypeError.

End RestTemplateService.

(** ** Query-string helpers ([rest-template.util.ts]) *)

(** [string | number | boolean].  [Num] stands for the numbers and
    [Number_toString] for their string form, both the platform's. *)
Inductive QueryValue (Num : Type) : Type :=
| QString (s : string)
| QNumber (n : Num)
| QBoolean (b : bool).
Arguments QString {Num} s.
Arguments QNumber {Num} n.
Arguments QBoolean {Num} b.

(** [String(v)] *)
Definition js_String {Num : Type} (Number_toString : Num → string)
  (v : QueryValue Num) : string :=
  match v with
  | QString s => s
  | QNumber n => Number_toString n
  | QBoolean true => "true"
  | QBoolean false => "false"
  end.

(** [s.includes(sub)] *)
Fixpoint includes (s sub : string) : bool :=
  String.prefix sub s
  || match s with
     | EmptyString => false
     | String _ rest => includes rest sub
     end.

(** The platform's [URLSearchParams]: a list of name-value pairs and the
    application/x-www-form-urlencoded serializer.  [append] takes a name
    and a value as USVStrings: the platform first converts them to
    well-formed Unicode, a lone surrogate becoming U+FFFD, and the
    serializer writes the UTF-8 bytes of the outcome.  A [string] here is
    that byte sequence, so the conversion lies in reading a JavaScript
    string as a [string]: two JavaScript strings that differ only in which
    lone surrogates they hold, or in a lone surrogate against U+FFFD, are
    one [string]. *)
Module URLSearchParams.

Definition t : Type := list (string * string).

Definition new : t := [].

Definition append (usp : t) (name value : string) : t :=
  (usp ++ [(name, value)])%list.

Definition hex_digit (n : N) : ascii :=
  match n with
  | 0 => "0" | 1 => "1" | 2 => "2" | 3 => "3" | 4 => "4" | 5 => "5"
  | 6 => "6" | 7 => "7" | 8 => "8" | 9 => "9" | 10 => "A" | 11 => "B"
  | 12 => "C" | 13 => "D" | 14 => "E" | _ => "F"
  end%N%char.

(** Bytes the serializer leaves as they are: [*-._] and ASCII alphanumerics. *)
Definition unescaped (c : ascii) : bool :=
  let n := N_of_ascii c in
  ((n =? 42) || (n =? 45) || (n =? 46) || (n =? 95)
   || ((48 <=? n) && (n <=? 57))
   || ((65 <=? n) && (n <=? 90))
   || ((97 <=? n) && (n <=? 122)))%N.

Definition encode_byte (c : ascii) : string :=
  let n := N_of_ascii c in
  if (n =? 32)%N then "+"
  else if unescaped c then String c EmptyString
  else String "%" (String (hex_digit (n / 16))
                     (String (hex_digit (n mod 16)) EmptyString)).

Fixpoint encode (s : string) : string :=
  match s with
  | EmptyString => EmptyString
  | String c rest => encode_byte c +:+ encode rest
  end.

(** The serializer's loop: an ampersand before every pair written to a
    non-empty output. *)
Definition toString (usp : t) : string :=
  foldl (λ output '(name, value),
           (if decide (output = "") then output else output +:+ "&")
           +:+ encode name +:+ "=" +:+ encode value)
        "" usp.

End URLSearchParams.

(** [buildUrl]; the [params] object is given by its entries, in the order
    of [Object.entries]. *)
Definition buildUrl {Num : Type} (Number_toString : Num → string)
  (url : string) (params : option (list (string * QueryValue Num)))
  : string :=
  match params with
  | None => url
  | Some entries =>
      if decide (List.length (List.map fst entries) = 0%nat) then url
      else
        let hasQuery := includes url "?" in
        let usp :=
          foldl (λ usp '(k, v),
                   URLSearchParams.append usp k (js_String Number_toString v))
                URLSearchParams.new entries in
        url +:+ (if hasQuery then "&" else "?")
            +:+ URLSearchParams.toString usp
  end.

(** Integers as numbers, written in decimal as [String] writes the
    integers of magnitude below 10^21. *)
Definition buildUrl_int : string → option (list (string * QueryValue Z))
                          → string :=
  buildUrl (pretty : Z → string).

(** ** Argument checks ([rest-template.util.ts])

    [assertNonEmpty] looks at the characters of [value], so [value] is given
    by its UTF-16 code units; [label] is only written into the message. *)

(** ECMAScript's white space and line terminators, the code units that
    [String.prototype.trim] removes. *)
Definition is_white_space (c : N) : bool :=
  ((c =? 9) || (c =? 10) || (c =? 11) || (c =? 12) || (c =? 13)
   || (c =? 32) || (c =? 160) || (c =? 5760)
   || ((8192 <=? c) && (c <=? 8202))
   || (c =? 8232) || (c =? 8233) || (c =? 8239) || (c =? 8287)
   || (c =? 12288) || (c =? 65279))%N.

Fixpoint trimStart (s : list N) : list N :=
  match s with
  | c :: rest => if is_white_space c then trimStart rest else s
  | [] => []
  end.

Definition trimEnd (s : list N) : list N := rev (trimStart (rev s)).

Definition trim (s : list N) : list N := trimEnd (trimStart s).

(** [new Error(message)] *)
Record Error : Type := { error_message : string }.

Definition assertNonEmpty (value : list N) (label : string) : Error + unit :=
  if match value with [] => true | _ => false end
     || (List.length (trim value) =? 0)%nat
  then inl {| error_message := label +:+ " must be a non-empty string" |}
  else inr tt.

(** ** A scripted transport

    The test double of the repository's test suite, with prepared outcomes:
    each request consumes the next one; with none left the transport fails
    without a response. *)
Definition Script : Type := list (Caught + AxiosResponse).

Definition network_error : Caught :=
  CaughtValue {| err_message := Some "Network Error"; response := None |}.

Definition scripted_request (config : AxiosRequestConfig) (w : Script)
  : (Caught + AxiosResponse) * Script :=
  match w with
  | outcome :: rest => (outcome, rest)
  | [] => (inl network_error, [])
  end.

#[export] Instance scripted_service
  : RestTemplate Script ServiceException :=
  RestTemplateService.service scripted_request.

(** The calls a run added to the trace are counted on the trace. *)
Definition is_transport_call (ev : Event) : bool :=
  match ev with
  | CallTransport _ => true
  | _ => false
  end.

Definition transport_attempts (t : list Event) : nat :=
  length (List.filter is_transport_call t).

(** ** Sample values

    The objects of the repository's test suite
    ([rest-template.service.spec.ts]), and a few more. *)

(** [{ headers: { 'X-Trace': 'trace-123' }, timeout: 5000 }] at reference 1,
    its headers object at reference 2. *)
Definition test_config : ConfigObj :=
  {| o_headers := Some 2%positive;
     o_params := None;
     o_timeout := Some 5000;
     o_method := None;
     o_url := None;
     o_data := None |}.

Definition test_store : Heap :=
  <[2%positive := ObjHeaders {[ "X-Trace" := "trace-123" ]}]>
    {[ 1%positive := ObjConfig test_config ]}.

(** The same configuration with [{ Authorization: 'Basic abc' }] as headers. *)
Definition basic_auth_store : Heap :=
  <[2%positive := ObjHeaders {[ "Authorization" := "Basic abc" ]}]>
    {[ 1%positive := ObjConfig test_config ]}.

(** [{}], [{ token: 'access-token' }] and [{ token: '' }] *)
Definition context_without_token : RequestContext :=
  {| token := None; scopes := None; requestId := None |}.

Definition context_with_token : RequestContext :=
  {| token := Some "access-token"; scopes := None; requestId := None |}.

Definition context_with_empty_token : RequestContext :=
  {| token := Some ""; scopes := None; requestId := None |}.

(** The upstream error of the test suite: status 401 with a body. *)
Definition upstreamError : Caught :=
  CaughtValue
    {| err_message := Some "Request failed with status code 401";
       response :=
         Some {| status := Some 401;
                 err_data :=
                   Some {| body_message := Some "Unauthorized";
                           body_code := Some (inl "INVALID_TOKEN");
                           body_details :=
                             Some (JsObject
                                     (JsField "reason"
                                              (JsString "token expired")
                                              JsNoField)) |} |} |}.

Definition ok_response : AxiosResponse :=
  {| resp_data := JsString "ok";
     resp_status := 200;
     resp_statusText := "OK";
     resp_headers := ∅ |}.

Definition full_response_options : RestRequestOption :=
  {| opt_params := None;
     opt_headers := None;
     timeoutMs := None;
     context := None;
     responseMode := Some ResponseMode_full |}.

(** A transport about to answer once, and one about to fail twice with 401. *)
Definition answering : PState Script := mkPState [inr ok_response] [].

Definition unauthorized_twice : PState Script :=
  mkPState [inl upstreamError; inl upstreamError] [].

(** A transport that refuses every request with the upstream 401 of the
    test suite, and a template whose auth hook is refused the same way. *)
Definition always_unauthorized (config : AxiosRequestConfig) (w : unit)
  : (Caught + AxiosResponse) * unit :=
  (inl upstreamError, w).

Definition refused_service : RestTemplate unit ServiceException :=
  RestTemplateService.service always_unauthorized.

Definition auth_refused_template : RestTemplate Script ServiceException :=
  Build_RestTemplate Script ServiceException
    RestTemplateService.getDefaultHeaders
    (λ config ctx w, (inl upstreamError, w))
    RestTemplateService.mapAndThrowError
    scripted_request
    ThrownTypeError.



(** A transport whose promise is rejected without a reason
    ([Promise.reject()]). *)
Definition rejects_with_undefined : PState Script :=
  mkPState [inl CaughtUndefined] [].


Definition refused_start : PState unit := mkPState tt [].

Definition idle : PState Script := mkPState [] [].

(** The value of the test suite's configuration. *)
Definition test_config_value : AxiosRequestConfig :=
  {| headers := Some {[ "X-Trace" := "trace-123" ]};
     params := None;
     timeout := Some 5000;
     method := None;
     url := None;
     data := None |}.

(** * Vocabulary of the statements *)

(** The HTTP status a caught value carries, if any, and whether a caught
    value has no property to read. *)
Definition response_status (error : Caught) : option Z :=
  match error with
  | CaughtValue ax => response ax ≫= status
  | CaughtUndefined | CaughtNull => None
  end.

Definition is_nullish (error : Caught) : bool :=
  match error with
  | CaughtValue _ => false
  | CaughtUndefined | CaughtNull => true
  end.

(** [{ ...withAuth, method, url, data: body }] *)
Definition finalized (withAuth : AxiosRequestConfig) (m : Method)
  (u : string) (b : option JsValue) : AxiosRequestConfig :=
  {| headers := headers withAuth;
     params := params withAuth;
     timeout := timeout withAuth;
     method := Some m;
     url := Some u;
     data := b |}.

(** What the caller receives for a response envelope, by response mode. *)
Definition resolved_by_mode (options : option RestRequestOption)
  (resp : AxiosResponse) : Resolved :=
  match options ≫= responseMode with
  | Some ResponseMode_full => Envelope resp
  | Some ResponseMode_data | None => Body (resp_data resp)
  end.

(** A configuration without request line and body. *)
Definition bare (c : AxiosRequestConfig) : Prop :=
  method c = None ∧ url c = None ∧ data c = None.

(** One run of the steps 1-5 from state [s]: the auth hook throws, or the
    transport throws, or the transport answers. *)
Inductive attempt {W Exn : Type} `{!RestTemplate W Exn}
  (base : AxiosRequestConfig) (m : Method) (u : string) (b : option JsValue)
  (options : option RestRequestOption) (s : PState W)
  : (Caught + Resolved) * PState W → Prop :=
| attempt_auth_throws e w1 :
    applyAuth base (options ≫= context) (world s) = (inl e, w1) →
    attempt base m u b options s
      (inl e,
       mkPState w1 (trace s ++ [CallApplyAuth base (options ≫= context)]))
| attempt_transport_throws withAuth w1 e w2 :
    applyAuth base (options ≫= context) (world s) = (inr withAuth, w1) →
    http_request (finalized withAuth m u b) w1 = (inl e, w2) →
    attempt base m u b options s
      (inl e,
       mkPState w2 (trace s ++ [CallApplyAuth base (options ≫= context);
                                CallTransport (finalized withAuth m u b)]))
| attempt_answers withAuth w1 resp w2 :
    applyAuth base (options ≫= context) (world s) = (inr withAuth, w1) →
    http_request (finalized withAuth m u b) w1 = (inr resp, w2) →
    attempt base m u b options s
      (inr (resolved_by_mode options resp),
       mkPState w2 (trace s ++ [CallApplyAuth base (options ≫= context);
                                CallTransport (finalized withAuth m u b)])).

(** The shape of the calls one invocation of the routine adds to the trace:
    every auth call gets a bare configuration, and a transport call comes
    directly after an auth call and carries method, URL and body. *)
Inductive pipeline_trace (m : Method) (u : string) (b : option JsValue)
  : list Event → Prop :=
| pipeline_done : pipeline_trace m u b []
| pipeline_auth c ctx rest :
    bare c →
    pipeline_trace m u b rest →
    pipeline_trace m u b (CallApplyAuth c ctx :: rest)
| pipeline_auth_dispatch c ctx c' rest :
    bare c →
    method c' = Some m → url c' = Some u → data c' = b →
    pipeline_trace m u b rest →
    pipeline_trace m u b (CallApplyAuth c ctx :: CallTransport c' :: rest)
| pipeline_mapper e rest :
    pipeline_trace m u b rest →
    pipeline_trace m u b (CallMapAndThrowError e :: rest).

(** The public verb methods of a template, each with the method name and
    the body it forwards. *)
Definition retry_verbs {W Exn : Type} `{!RestTemplate W Exn}
  (u : string) (b : option JsValue) (options : option RestRequestOption)
  : list (Method * option JsValue * Task W Exn Resolved) :=
  [ ("GET", None, AbstractRestTemplate.get u options);
    ("POST", b, AbstractRestTemplate.post u b options);
    ("PUT", b, AbstractRestTemplate.put u b options);
    ("PATCH", b, AbstractRestTemplate.patch u b options);
    ("DELETE", None, AbstractRestTemplate.delete u options) ].

Definition plain_verbs {W Exn : Type} `{!RestTemplate W Exn}
  (u : string) (b : option JsValue) (options : option RestRequestOption)
  : list (Method * option JsValue * Task W Exn Resolved) :=
  [ ("GET", None, AbstractRestTemplatePlain.get u options);
    ("POST", b, AbstractRestTemplatePlain.post u b options);
    ("PUT", b, AbstractRestTemplatePlain.put u b options);
    ("PATCH", b, AbstractRestTemplatePlain.patch u b options);
    ("DELETE", None, AbstractRestTemplatePlain.delete u options) ].

(** The pair a name and a value serialize to. *)
Definition encoded_pair (p : string * string) : string :=
  URLSearchParams.encode p.1 +:+ "=" +:+ URLSearchParams.encode p.2.

(** Counts of the calls on a trace. *)
Definition is_auth_call (ev : Event) : bool :=
  match ev with
  | CallApplyAuth _ _ => true
  | _ => false
  end.

Definition is_mapper_call (ev : Event) : bool :=
  match ev with
  | CallMapAndThrowError _ => true
  | _ => false
  end.

Definition auth_calls (t : list Event) : nat :=
  length (List.filter is_auth_call t).

Definition mapper_calls (t : list Event) : nat :=
  length (List.filter is_mapper_call t).

(** Occurrences of a character in a string, and a test on all of its
    characters. *)
Fixpoint count_char (c : ascii) (s : string) : nat :=
  match s with
  | EmptyString => 0
  | String x rest => (if Ascii.eqb x c then 1 else 0) + count_char c rest
  end%nat.

Fixpoint string_forallb (p : ascii → bool) (s : string) : bool :=
  match s with
  | EmptyString => true
  | String x rest => p x && string_forallb p rest
  end.

(** The characters the form-urlencoded serializer can write. *)
Definition form_safe (c : ascii) : bool :=
  URLSearchParams.unescaped c || Ascii.eqb c "+" || Ascii.eqb c "%".

(** The name and the string form of the value of an entry. *)
Definition stringified {Num : Type} (Number_toString : Num → string)
  (entry : string * QueryValue Num) : string * string :=
  (entry.1, js_String Number_toString entry.2).

(** The options with another response mode, and the body-only reading of a
    resolved value. *)
Definition with_responseMode (o : RestRequestOption)
  (mode : option ResponseMode) : RestRequestOption :=
  {| opt_params := opt_params o;
     opt_headers := opt_headers o;
     timeoutMs := timeoutMs o;
     context := context o;
     responseMode := mode |}.

Definition body_of (resolved : Resolved) : Resolved :=
  match resolved with
  | Envelope resp => Body (resp_data resp)
  | Body d => Body d
  end.

Definition outcome_map {E A B S : Type} (f : A → B) (out : (E + A) * S)
  : (E + B) * S :=
  (match out.1 with
   | inl e => inl e
   | inr a => inr (f a)
   end, out.2).

(** Reading back the first byte the serializer wrote. *)
Definition unhex (c : ascii) : option N :=
  let n := N_of_ascii c in
  if ((48 <=? n) && (n <=? 57))%N then Some (n - 48)%N
  else if ((65 <=? n) && (n <=? 70))%N then Some (n - 55)%N
  else None.

Definition decode_head (s : string) : option (ascii * string) :=
  match s with
  | EmptyString => None
  | String c rest =>
      if Ascii.eqb c "+" then Some (" "%char, rest)
      else if Ascii.eqb c "%" then
        match rest with
        | String h1 (String h2 rest') =>
            match unhex h1, unhex h2 with
            | Some a, Some b => Some (ascii_of_N (16 * a + b), rest')
            | _, _ => None
            end
        | _ => None
        end
      else Some (c, rest)
  end.

(** What follows a pair in the serializer's output: nothing, or an
    ampersand and more. *)
Definition pair_tail (x : string) : Prop :=
  x = "" ∨ ∃ r, x = String "&" r.

(** * Verification *)

(** ** Header objects *)

Lemma copy_properties_lookup (source target : Headers) (k : string) :
  copy_properties source target !! k = (source !! k) ?? (target !! k).
Proof.
  unfold copy_properties.
  apply (map_fold_weak_ind (λ r m, r !! k = (m !! k) ?? (target !! k))).
  - by rewrite lookup_empty.
  - intros i x m r _ IH. destruct (decide (i = k)) as [->|Hne].
    + by rewrite !lookup_insert_eq.
    + by rewrite !lookup_insert_ne.
Qed.

Lemma spread_lookup (a b : Headers) (k : string) :
  spread a b !! k = (b !! k) ?? (a !! k).
Proof.
  unfold spread. rewrite !copy_properties_lookup, lookup_empty.
  by destruct (b !! k), (a !! k).
Qed.

Lemma spread_empty_l (a : Headers) : spread ∅ a = a.
Proof.
  apply map_eq. intros k. rewrite spread_lookup, lookup_empty.
  by destruct (a !! k).
Qed.

(** ** Traces of the pipeline *)

Lemma pipeline_trace_app m u b (l1 l2 : list Event) :
  pipeline_trace m u b l1 → pipeline_trace m u b l2 →
  pipeline_trace m u b (l1 ++ l2)%list.
Proof.
  intros H1 Hl2. induction H1; cbn [app]; [done|..].
  - by constructor.
  - by constructor.
  - by constructor.
Qed.

Lemma pipeline_trace_auth_bare m u b (l : list Event) c ctx :
  pipeline_trace m u b l → CallApplyAuth c ctx ∈ l → bare c.
Proof.
  induction 1 as [|c0 ctx0 rest Hb _ IH|c0 ctx0 c' rest Hb _ _ _ _ IH
                  |e rest _ IH]; intros Hin.
  - by apply elem_of_nil in Hin.
  - apply elem_of_cons in Hin as [Heq|Hin]; [by simplify_eq/=|auto].
  - apply elem_of_cons in Hin as [Heq|Hin]; [by simplify_eq/=|].
    apply elem_of_cons in Hin as [Heq|Hin]; [done|auto].
  - apply elem_of_cons in Hin as [Heq|Hin]; [done|auto].
Qed.

Lemma pipeline_trace_dispatch_full m u b (l : list Event) c :
  pipeline_trace m u b l → CallTransport c ∈ l →
  method c = Some m ∧ url c = Some u ∧ data c = b.
Proof.
  induction 1 as [|c0 ctx0 rest _ _ IH|c0 ctx0 c' rest _ Hm Hu Hd _ IH
                  |e rest _ IH]; intros Hin.
  - by apply elem_of_nil in Hin.
  - apply elem_of_cons in Hin as [Heq|Hin]; [done|auto].
  - apply elem_of_cons in Hin as [Heq|Hin]; [done|].
    apply elem_of_cons in Hin as [Heq|Hin]; [by simplify_eq/=|auto].
  - apply elem_of_cons in Hin as [Heq|Hin]; [done|auto].
Qed.

(** A transport call directly follows an auth call. *)
Lemma pipeline_trace_dispatch_after_auth m u b (l : list Event) :
  pipeline_trace m u b l →
  ∀ before c after, l = (before ++ CallTransport c :: after)%list →
  ∃ earlier c0 ctx,
    before = (earlier ++ [CallApplyAuth c0 ctx])%list ∧ bare c0.
Proof.
  induction 1 as [|c0 ctx0 rest Hb _ IH|c0 ctx0 c' rest Hb _ _ _ _ IH
                  |e rest _ IH]; intros before c after Heq.
  - by destruct before.
  - destruct before as [|x before]; simplify_eq/=.
    destruct (IH _ _ _ eq_refl) as (earlier & c1 & ctx1 & -> & Hb1).
    by exists (CallApplyAuth c0 ctx0 :: earlier), c1, ctx1.
  - destruct before as [|x [|y before]]; simplify_eq/=.
    + by exists [], c0, ctx0.
    + destruct (IH _ _ _ eq_refl) as (earlier & c1 & ctx1 & -> & Hb1).
      by exists (CallApplyAuth c0 ctx0 :: CallTransport c' :: earlier),
           c1, ctx1.
  - destruct before as [|x before]; simplify_eq/=.
    destruct (IH _ _ _ eq_refl) as (earlier & c1 & ctx1 & -> & Hb1).
    by exists (CallMapAndThrowError e :: earlier), c1, ctx1.
Qed.

(** ** The request pipeline *)
Section Pipeline.
Context {W Exn : Type} `{!RestTemplate W Exn}.

(** C5: the base configuration has the default headers overridden by the
    per-call headers, the per-call query params, and the per-call timeout or
    10000 ms; it has no method, URL or body. *)
Theorem buildBaseConfig_merges_defaults (options : option RestRequestOption) :
  let perCall : Headers := default ∅ (options ≫= opt_headers) in
  let cfg := AbstractRestTemplate.buildBaseConfig options in
  (∃ merged : Headers,
      headers cfg = Some merged
      ∧ (∀ k v, perCall !! k = Some v → merged !! k = Some v)
      ∧ (∀ k, perCall !! k = None → merged !! k = getDefaultHeaders !! k))
  ∧ params cfg = options ≫= opt_params
  ∧ (∀ ms, options ≫= timeoutMs = Some ms → timeout cfg = Some ms)
  ∧ (options ≫= timeoutMs = None → timeout cfg = Some 10000).
Proof.
  cbn zeta. unfold AbstractRestTemplate.buildBaseConfig.
  cbn [headers params timeout].
  split; [|split; [done|split]].
  - eexists. split; [done|]. split.
    + intros k v Hk. by rewrite spread_lookup, Hk.
    + intros k Hk. by rewrite spread_lookup, Hk.
  - intros ms ->. done.
  - intros ->. done.
Qed.

(** *** One attempt *)

Lemma resolved_by_mode_decide (options : option RestRequestOption)
  (resp : AxiosResponse) :
  (if decide (default ResponseMode_data (options ≫= responseMode)
              = ResponseMode_full)
   then Envelope resp else Body (resp_data resp))
  = resolved_by_mode options resp.
Proof.
  unfold resolved_by_mode.
  by destruct (options ≫= responseMode) as [[]|].
Qed.

Lemma request_try_attempt m u b options (s : PState W) :
  attempt (AbstractRestTemplate.buildBaseConfig options) m u b options s
          (AbstractRestTemplate.request_try m u b options s).
Proof.
  unfold AbstractRestTemplate.request_try, await_applyAuth,
    await_axios_request, task_bind, record_call, run_on_world, task_ret.
  cbn [world trace].
  destruct (applyAuth _ _ (world s)) as [[e|withAuth] w1] eqn:Hauth.
  - by apply attempt_auth_throws.
  - cbn [world trace]. fold (finalized withAuth m u b).
    destruct (http_request _ w1) as [[e|resp] w2] eqn:Hhttp.
    + rewrite <- app_assoc. by eapply attempt_transport_throws.
    + rewrite <- app_assoc, resolved_by_mode_decide.
      by eapply attempt_answers.
Qed.

Lemma plain_request_try_attempt m u b options (s : PState W) :
  attempt (AbstractRestTemplatePlain.buildBaseConfig options) m u b options s
          (AbstractRestTemplatePlain.request_try m u b options s).
Proof.
  unfold AbstractRestTemplatePlain.request_try, await_applyAuth,
    await_axios_request, task_bind, record_call, run_on_world, task_ret.
  cbn [world trace].
  destruct (applyAuth _ _ (world s)) as [[e|withAuth] w1] eqn:Hauth.
  - by apply attempt_auth_throws.
  - cbn [world trace]. fold (finalized withAuth m u b).
    destruct (http_request _ w1) as [[e|resp] w2] eqn:Hhttp.
    + rewrite <- app_assoc. by eapply attempt_transport_throws.
    + rewrite <- app_assoc, resolved_by_mode_decide.
      by eapply attempt_answers.
Qed.

(** The mapper raises: its normal return has no inhabitant. *)
Lemma call_mapAndThrowError_raises {A} (error : Caught) (s : PState W) :
  ∃ exn, mapAndThrowError error = inl exn
         ∧ call_mapAndThrowError (A := A) error s
           = (inl exn,
              mkPState (world s) (trace s ++ [CallMapAndThrowError error])).
Proof.
  unfold call_mapAndThrowError, task_bind, record_call, throw.
  destruct (mapAndThrowError error) as [exn|[]].
  by exists exn.
Qed.

(** The routine, unfolded once at a state. *)
Lemma request_run m u b options arg (s : PState W) :
  AbstractRestTemplate.request m u b options arg s
  = match AbstractRestTemplate.request_try m u b options s with
    | (inl error, s') =>
        if is_nullish error then (inl TypeError, s')
        else if decide (response_status error = Some 401 ∧ default 0 arg > 0)
        then AbstractRestTemplate.request m u b options
               (Some (default 0 arg - 1)) s'
        else call_mapAndThrowError error s'
    | (inr resolved, s') => (inr resolved, s')
    end.
Proof.
  rewrite AbstractRestTemplate.request_equation_1.
  cbn zeta. unfold try_catch.
  destruct (AbstractRestTemplate.request_try m u b options s) as [[e|r] s'];
    [|done].
  destruct e as [| |ax]; [done..|]. cbn [read_response is_nullish].
  unfold response_status. by destruct (decide _).
Qed.

Lemma plain_request_run m u b options (s : PState W) :
  AbstractRestTemplatePlain.request m u b options s
  = match AbstractRestTemplatePlain.request_try m u b options s with
    | (inl error, s') => call_mapAndThrowError error s'
    | (inr resolved, s') => (inr resolved, s')
    end.
Proof. reflexivity. Qed.

Lemma request_try_twin m u b options (s : PState W) :
  AbstractRestTemplatePlain.request_try m u b options s
  = AbstractRestTemplate.request_try m u b options s.
Proof. reflexivity. Qed.

(** Without a positive budget the routine maps the failure at once. *)
Lemma request_no_budget m u b options arg (s : PState W) :
  (default 0 arg ≤ 0)%Z →
  AbstractRestTemplate.request m u b options arg s
  = match AbstractRestTemplate.request_try m u b options s with
    | (inl error, s') =>
        if is_nullish error then (inl TypeError, s')
        else call_mapAndThrowError error s'
    | (inr resolved, s') => (inr resolved, s')
    end.
Proof.
  intros Hle. rewrite request_run.
  destruct (AbstractRestTemplate.request_try m u b options s) as [[e|r] s'];
    [|done].
  destruct (is_nullish e); [done|].
  destruct (decide _) as [[_ Hpos]|_]; [lia|done].
Qed.

(** With no budget and an attempt that does not fail with [undefined] or
    [null], the two routines have the same outcome. *)
Lemma request_no_budget_plain m u b options arg (s : PState W) :
  (default 0 arg ≤ 0)%Z →
  (∀ e s', AbstractRestTemplate.request_try m u b options s = (inl e, s') →
           is_nullish e = false) →
  AbstractRestTemplate.request m u b options arg s
  = AbstractRestTemplatePlain.request m u b options s.
Proof.
  intros Hle Hvalue. rewrite request_no_budget, plain_request_run by done.
  change (AbstractRestTemplatePlain.request_try m u b options s)
    with (AbstractRestTemplate.request_try m u b options s).
  destruct (AbstractRestTemplate.request_try m u b options s)
    as [[e|r] s'] eqn:Htry; [|done].
  by rewrite (Hvalue e s').
Qed.

(** With no budget and an attempt that fails with [undefined] or [null],
    the retry-capable routine raises the [TypeError] of its own catch block
    and the mapper is not called; the routine without the retry branch
    calls the mapper. *)
Lemma request_no_budget_nullish m u b options arg (s : PState W) e s' :
  (default 0 arg ≤ 0)%Z →
  AbstractRestTemplate.request_try m u b options s = (inl e, s') →
  is_nullish e = true →
  AbstractRestTemplate.request m u b options arg s = (inl TypeError, s')
  ∧ ∃ exn,
      mapAndThrowError e = inl exn
      ∧ AbstractRestTemplatePlain.request m u b options s
        = (inl exn,
           mkPState (world s') (trace s' ++ [CallMapAndThrowError e])).
Proof.
  intros Hle Htry Hnull. split.
  - by rewrite request_no_budget, Htry, Hnull.
  - rewrite plain_request_run.
    change (AbstractRestTemplatePlain.request_try m u b options s)
      with (AbstractRestTemplate.request_try m u b options s).
    rewrite Htry. apply call_mapAndThrowError_raises.
Qed.

(** *** What one invocation adds to the trace *)

Lemma attempt_trace base m u b options (s : PState W) out :
  bare base →
  attempt base m u b options s out →
  ∃ added, trace out.2 = (trace s ++ added)%list
           ∧ pipeline_trace m u b added.
Proof.
  intros Hbare [e w1 _|withAuth w1 e w2 _ _|withAuth w1 resp w2 _ _];
    cbn [snd trace]; eexists; (split; [done|]).
  - apply pipeline_auth; [done|apply pipeline_done].
  - by apply pipeline_auth_dispatch; [..|apply pipeline_done].
  - by apply pipeline_auth_dispatch; [..|apply pipeline_done].
Qed.

Lemma buildBaseConfig_bare options :
  bare (AbstractRestTemplate.buildBaseConfig options).
Proof. done. Qed.

Lemma call_mapAndThrowError_trace {A} m u b (e : Caught) (s : PState W) :
  ∃ added, trace (call_mapAndThrowError (A := A) e s).2
           = (trace s ++ added)%list
           ∧ pipeline_trace m u b added.
Proof.
  destruct (call_mapAndThrowError_raises (A := A) e s) as (exn & _ & ->).
  eexists. split; [done|]. apply pipeline_mapper, pipeline_done.
Qed.

Lemma plain_request_trace m u b options (s : PState W) :
  ∃ added,
    trace (AbstractRestTemplatePlain.request m u b options s).2
    = (trace s ++ added)%list
    ∧ pipeline_trace m u b added.
Proof.
  rewrite plain_request_run.
  destruct (attempt_trace _ m u b options s _
              (buildBaseConfig_bare options)
              (plain_request_try_attempt m u b options s))
    as (added & Htr & Hshape).
  destruct (AbstractRestTemplatePlain.request_try m u b options s)
    as [[e|r] s']; cbn [snd] in *; [|by eauto].
  destruct (call_mapAndThrowError_trace (A := Resolved) m u b e s')
    as (added' & Htr' & Hshape').
  exists (added ++ added')%list. split.
  - by rewrite Htr', Htr, app_assoc.
  - by apply pipeline_trace_app.
Qed.

Lemma request_trace m u b options (n : nat) :
  ∀ arg (s : PState W),
    Z.to_nat (default 0 arg) = n →
    ∃ added,
      trace (AbstractRestTemplate.request m u b options arg s).2
      = (trace s ++ added)%list
      ∧ pipeline_trace m u b added.
Proof.
  induction n as [|n IH]; intros arg s Hn; rewrite request_run;
    destruct (attempt_trace _ m u b options s _
                (buildBaseConfig_bare options)
                (request_try_attempt m u b options s))
      as (added & Htr & Hshape);
    destruct (AbstractRestTemplate.request_try m u b options s)
      as [[e|r] s']; cbn [snd] in *; try by eauto.
  - destruct (is_nullish e); [by eauto|].
    destruct (decide _) as [[_ Hpos]|_]; [lia|].
    destruct (call_mapAndThrowError_trace (A := Resolved) m u b e s')
      as (added' & Htr' & Hshape').
    exists (added ++ added')%list. split.
    + by rewrite Htr', Htr, app_assoc.
    + by apply pipeline_trace_app.
  - destruct (is_nullish e); [by eauto|].
    destruct (decide _) as [[_ Hpos]|_].
    + destruct (IH (Some (default 0 arg - 1)) s')
        as (added' & Htr' & Hshape'); [cbn; lia|].
      exists (added ++ added')%list. split.
      * by rewrite Htr', Htr, app_assoc.
      * by apply pipeline_trace_app.
    + destruct (call_mapAndThrowError_trace (A := Resolved) m u b e s')
        as (added' & Htr' & Hshape').
      exists (added ++ added')%list. split.
      * by rewrite Htr', Htr, app_assoc.
      * by apply pipeline_trace_app.
Qed.

(** C7: in both templates, whatever the outcome, every configuration handed
    to [applyAuth] has no method, no URL and no body; every configuration
    handed to the transport has the caller's method, URL and body; and a
    transport call comes directly after an [applyAuth] call. *)
Theorem applyAuth_gets_bare_config m u b options arg (s : PState W) :
  ∀ out,
    out = AbstractRestTemplate.request m u b options arg s
    ∨ out = AbstractRestTemplatePlain.request m u b options s →
  ∃ added,
    trace out.2 = (trace s ++ added)%list
    ∧ (∀ c ctx, CallApplyAuth c ctx ∈ added →
         method c = None ∧ url c = None ∧ data c = None)
    ∧ (∀ c, CallTransport c ∈ added →
         method c = Some m ∧ url c = Some u ∧ data c = b)
    ∧ (∀ before c after,
         added = (before ++ CallTransport c :: after)%list →
         ∃ earlier c0 ctx,
           before = (earlier ++ [CallApplyAuth c0 ctx])%list
           ∧ method c0 = None ∧ url c0 = None ∧ data c0 = None).
Proof.
  intros out Hout.
  assert (∃ added, trace out.2 = (trace s ++ added)%list
                   ∧ pipeline_trace m u b added)
    as (added & Htr & Hshape).
  { destruct Hout as [->| ->].
    - by eapply request_trace.
    - apply plain_request_trace. }
  exists added. split; [done|]. split; [|split].
  - intros c ctx Hin. by eapply pipeline_trace_auth_bare.
  - intros c Hin. by eapply pipeline_trace_dispatch_full.
  - intros before c after Heq.
    by eapply pipeline_trace_dispatch_after_auth.
Qed.

(** *** Outcomes of one attempt, read back from the hooks *)

Lemma attempt_answers_inv base m u b options (s : PState W) out
  withAuth w1 resp w2 :
  attempt base m u b options s out →
  applyAuth base (options ≫= context) (world s) = (inr withAuth, w1) →
  http_request (finalized withAuth m u b) w1 = (inr resp, w2) →
  out = (inr (resolved_by_mode options resp),
         mkPState w2
           (trace s ++ [CallApplyAuth base (options ≫= context);
                        CallTransport (finalized withAuth m u b)])).
Proof.
  intros [e w1' Ha|withAuth' w1' e w2' Ha Hh|withAuth' w1' resp' w2' Ha Hh]
    Ha' Hh'; rewrite Ha in Ha'; simplify_eq/=; try done.
  all: rewrite Hh in Hh'; by simplify_eq/=.
Qed.

(** A failed attempt made at most one transport call. *)
Lemma attempt_throws_inv base m u b options (s : PState W) e s' :
  attempt base m u b options s (inl e, s') →
  ∃ added, trace s' = (trace s ++ added)%list
           ∧ (transport_attempts added ≤ 1)%nat
           ∧ ((∀ cfg ctx w, ∃ cfg' w',
                 applyAuth cfg ctx w = (inr cfg', w')) →
              transport_attempts added = 1%nat).
Proof.
  inversion 1 as [e' w1 Ha|withAuth w1 e' w2 Ha Hh|]; subst;
    eexists; (split; [done|]); cbn; (split; [lia|]); [|done].
  intros Hauth.
  destruct (Hauth base (options ≫= context) (world s)) as (c' & w' & Hc).
  rewrite Hc in Ha. done.
Qed.

Lemma transport_attempts_app (l1 l2 : list Event) :
  transport_attempts (l1 ++ l2) = (transport_attempts l1
                                   + transport_attempts l2)%nat.
Proof. unfold transport_attempts. by rewrite List.filter_app, length_app. Qed.

(** C6: when the auth hook and the transport both succeed, each verb method
    of either template resolves to the whole response envelope if the
    options ask for the full response, and to the response body alone if
    the options are absent, set no response mode, or ask for the body. *)
Theorem verbs_resolve_by_responseMode u b options (s : PState W)
  m body call withAuth w1 resp w2 :
  (m, body, call) ∈ (retry_verbs u b options ++ plain_verbs u b options)%list →
  applyAuth (AbstractRestTemplate.buildBaseConfig options)
            (options ≫= context) (world s) = (inr withAuth, w1) →
  http_request (finalized withAuth m u body) w1 = (inr resp, w2) →
  (options ≫= responseMode = Some ResponseMode_full →
     (call s).1 = inr (Envelope resp))
  ∧ (options = None
     ∨ options ≫= responseMode = None
     ∨ options ≫= responseMode = Some ResponseMode_data →
     (call s).1 = inr (Body (resp_data resp))).
Proof.
  intros Hin Ha Hh.
  assert ((call s).1 = inr (resolved_by_mode options resp)) as ->.
  { apply elem_of_app in Hin as [Hin|Hin];
      unfold retry_verbs, plain_verbs in Hin;
      repeat (apply elem_of_cons in Hin as [Heq|Hin]; [simplify_eq/=|]);
      try (by apply elem_of_nil in Hin).
    all: first
      [ unfold AbstractRestTemplate.get, AbstractRestTemplate.post,
          AbstractRestTemplate.put, AbstractRestTemplate.patch,
          AbstractRestTemplate.delete;
        rewrite request_run;
        by rewrite (attempt_answers_inv _ _ _ _ _ _ _ _ _ _ _
                      (request_try_attempt _ _ _ _ _) Ha Hh)
      | unfold AbstractRestTemplatePlain.get, AbstractRestTemplatePlain.post,
          AbstractRestTemplatePlain.put, AbstractRestTemplatePlain.patch,
          AbstractRestTemplatePlain.delete;
        rewrite plain_request_run;
        by rewrite (attempt_answers_inv _ _ _ _ _ _ _ _ _ _ _
                      (plain_request_try_attempt _ _ _ _ _) Ha Hh) ]. }
  unfold resolved_by_mode. split.
  - by intros ->.
  - intros [->|[->| ->]]; done.
Qed.

(** *** The catch block *)

Lemma status_not_nullish (e : Caught) (n : Z) :
  response_status e = Some n → is_nullish e = false.
Proof. by destruct e. Qed.

Lemma request_retries m u b options arg (s : PState W) e s' :
  AbstractRestTemplate.request_try m u b options s = (inl e, s') →
  response_status e = Some 401 → default 0 arg > 0 →
  AbstractRestTemplate.request m u b options arg s
  = AbstractRestTemplate.request m u b options
      (Some (default 0 arg - 1)) s'.
Proof.
  intros Htry H401 Hpos.
  rewrite request_run, Htry, (status_not_nullish e 401 H401).
  by destruct (decide _) as [_|[]].
Qed.

Lemma request_maps m u b options arg (s : PState W) e s' :
  AbstractRestTemplate.request_try m u b options s = (inl e, s') →
  is_nullish e = false →
  ¬ (response_status e = Some 401 ∧ default 0 arg > 0) →
  ∃ exn, mapAndThrowError e = inl exn
         ∧ AbstractRestTemplate.request m u b options arg s
           = (inl exn,
              mkPState (world s') (trace s' ++ [CallMapAndThrowError e])).
Proof.
  intros Htry Hvalue Hno. rewrite request_run, Htry, Hvalue.
  destruct (decide _) as [Hyes|_]; [done|].
  apply call_mapAndThrowError_raises.
Qed.



(** C10: every public verb method of the retry-capable template calls the
    routine without a budget; so whatever the failure of its attempt
    (status 401 included), [undefined] and [null] apart, the mapper is
    called with it at once, after at most one transport call.  A budget of
    0 or less behaves like no budget, and with a budget above 0 a failure
    with status 401 does start the routine again.  A failure [undefined] or
    [null], which has no status, is not retried either: the verb raises the
    [TypeError] of the catch block in the state the attempt left. *)
Theorem public_verbs_do_not_retry u b options (s : PState W) :
  (∀ m body call,
      (m, body, call) ∈ retry_verbs u b options →
      call = AbstractRestTemplate.request m u body options None)
  ∧ (∀ m body call e s',
       (m, body, call) ∈ retry_verbs u b options →
       AbstractRestTemplate.request_try m u body options s = (inl e, s') →
       is_nullish e = false →
       ∃ exn added,
         mapAndThrowError e = inl exn
         ∧ call s
           = (inl exn,
              mkPState (world s') (trace s' ++ [CallMapAndThrowError e]))
         ∧ trace s' = (trace s ++ added)%list
         ∧ (transport_attempts added ≤ 1)%nat)
  ∧ (∀ m body budget,
       (budget ≤ 0)%Z →
       AbstractRestTemplate.request m u body options (Some budget) s
       = AbstractRestTemplate.request m u body options None s)
  ∧ (∀ m body budget e s',
       budget > 0 →
       AbstractRestTemplate.request_try m u body options s = (inl e, s') →
       response_status e = Some 401 →
       AbstractRestTemplate.request m u body options (Some budget) s
       = AbstractRestTemplate.request m u body options
           (Some (budget - 1)) s')
  ∧ (∀ m body call e s',
       (m, body, call) ∈ retry_verbs u b options →
       AbstractRestTemplate.request_try m u body options s = (inl e, s') →
       is_nullish e = true →
       call s = (inl TypeError, s')).
Proof.
  assert (∀ m body call,
            (m, body, call) ∈ retry_verbs u b options →
            call = AbstractRestTemplate.request m u body options None)
    as Hverbs.
  { intros m body call Hin. unfold retry_verbs in Hin.
    repeat (apply elem_of_cons in Hin as [Heq|Hin]; [by simplify_eq/=|]).
    by apply elem_of_nil in Hin. }
  split; [done|]. split; [|split; [|split]].
  - intros m body call e s' Hin Htry Hvalue.
    rewrite (Hverbs _ _ _ Hin).
    destruct (request_maps m u body options None s e s' Htry Hvalue)
      as (exn & Hmap & Hreq); [cbn; lia|].
    pose proof (request_try_attempt m u body options s) as Hatt.
    rewrite Htry in Hatt.
    eapply attempt_throws_inv in Hatt as (added & Htr & Hle & _).
    by exists exn, added.
  - intros m body budget Hle. by rewrite !request_no_budget.
  - intros m body budget e s' Hpos Htry H401.
    by apply (request_retries m u body options (Some budget) s e s').
  - intros m body call e s' Hin Htry Hnull.
    by rewrite (Hverbs _ _ _ Hin), request_no_budget, Htry, Hnull.
Qed.

End Pipeline.

(** ** The two templates side by side *)

(** C9: with a retry budget of 0, the request routine of the retry-capable
    template and the routine of the template without the retry branch have
    the same outcome, make the same calls and leave the same state (the
    same result on success, the same call of the mapper on failure)
    whenever the attempt does not fail with [undefined] or [null].  On such
    a failure they part: the retry-capable routine raises the [TypeError]
    of its own catch block and does not call the mapper, where the other
    routine calls the mapper with the failure.  The last part is such a
    run, over a transport whose promise is rejected without a reason. *)
Theorem request_budget_0_and_plain_request :
  (∀ (W Exn : Type) (template : RestTemplate W Exn) m u b options
     (s : PState W),
      (∀ e s',
          AbstractRestTemplate.request_try m u b options s = (inl e, s') →
          is_nullish e = false) →
      AbstractRestTemplate.request m u b options (Some 0) s
      = AbstractRestTemplatePlain.request m u b options s)
  ∧ (∀ (W Exn : Type) (template : RestTemplate W Exn) m u b options
       (s : PState W) e s',
        AbstractRestTemplate.request_try m u b options s = (inl e, s') →
        is_nullish e = true →
        AbstractRestTemplate.request m u b options (Some 0) s
        = (inl TypeError, s')
        ∧ ∃ exn,
            mapAndThrowError e = inl exn
            ∧ AbstractRestTemplatePlain.request m u b options s
              = (inl exn,
                 mkPState (world s')
                          (trace s' ++ [CallMapAndThrowError e])))
  ∧ (let retrying :=
       AbstractRestTemplate.request "GET" "https://x/y" None None (Some 0)
         rejects_with_undefined in
     let plain :=
       AbstractRestTemplatePlain.request "GET" "https://x/y" None None
         rejects_with_undefined in
     retrying.1 = inl ThrownTypeError
     ∧ mapper_calls (trace retrying.2) = 0%nat
     ∧ plain.1 = inl ThrownTypeError
     ∧ trace plain.2
       = (trace retrying.2 ++ [CallMapAndThrowError CaughtUndefined])%list).
Proof.
  split; [|split].
  - intros W Exn template m u b options s Hvalue.
    by apply request_no_budget_plain.
  - intros W Exn template m u b options s e s' Htry Hnull.
    by apply request_no_budget_nullish.
  - cbn zeta. rewrite request_run. by vm_compute.
Qed.

(** ** The default template *)

(** *** The error mapper *)

(** C2, as the code has it: the mapper returns no value; for a caught
    value other than [undefined] and [null] it raises an [HttpException]
    whose status is the status of the error's response, or 502 when the
    error has no response or a response without status; whose message is
    the response body's message, else the error's own message, else the
    fixed text "Upstream request failed"; whose code is the response body's
    code, else "UPSTREAM_ERROR"; and whose details are the response body's
    details.  For [undefined] and [null] it raises the [TypeError] of its
    first property read. *)
Theorem mapAndThrowError_raises_HttpException (ax : AxiosError) :
  (∀ error : Caught, ∃ raised,
      RestTemplateService.mapAndThrowError error = inl raised)
  ∧ (∀ error : Caught,
       is_nullish error = true →
       RestTemplateService.mapAndThrowError error = inl ThrownTypeError)
  ∧ ∃ exn : HttpException,
      RestTemplateService.mapAndThrowError (CaughtValue ax)
      = inl (ThrownHttpException exn)
      ∧ getStatus exn
        = match response ax with
          | Some r => match status r with
                      | Some st => st
                      | None => 502
                      end
          | None => 502
          end
      ∧ message (getResponse exn)
        = match response_data ax ≫= body_message, err_message ax with
          | Some m, _ => m
          | None, Some m => m
          | None, None => "Upstream request failed"
          end
      ∧ code (getResponse exn)
        = match response_data ax ≫= body_code with
          | Some c => c
          | None => inl "UPSTREAM_ERROR"
          end
      ∧ details (getResponse exn) = response_data ax ≫= body_details.
Proof.
  split.
  { intros [| |ax']; by eexists. }
  split.
  { by intros [| |ax']. }
  eexists. split; [reflexivity|].
  cbn [getStatus getResponse message code details].
  unfold response_data, BAD_GATEWAY.
  destruct ax as [msg [[[st|] [[bm bc bd]|]]|]]; cbn.
  all: try by destruct bm, msg, bc.
  all: by destruct msg.
Qed.

(** C2 as claimed fails in three ways.  At a thrown value with neither a
    response nor a message the raised message is the fixed text, not the
    (absent) message of the error.  At an error whose response has no
    status the raised status is 502, not the (absent) status of the
    response.  At [undefined] and at [null] what is raised is the
    [TypeError] of the first property read, not an [HttpException]. *)
Lemma mapAndThrowError_fallbacks_and_TypeError :
  (RestTemplateService.mapAndThrowError
     (CaughtValue {| err_message := None; response := None |})
   = inl (ThrownHttpException
            {| getResponse := {| message := "Upstream request failed";
                                 code := inl "UPSTREAM_ERROR";
                                 details := None |};
               getStatus := 502 |})
   ∧ Some "Upstream request failed"
     ≠ (response_data {| err_message := None; response := None |}
          ≫= body_message)
       ?? err_message {| err_message := None; response := None |})
  ∧ (RestTemplateService.mapAndThrowError
       (CaughtValue
          {| err_message := Some "bad gateway";
             response := Some {| status := None; err_data := None |} |})
     = inl (ThrownHttpException
              {| getResponse := {| message := "bad gateway";
                                   code := inl "UPSTREAM_ERROR";
                                   details := None |};
                 getStatus := 502 |})
     ∧ Some 502
       ≠ response
           {| err_message := Some "bad gateway";
              response := Some {| status := None; err_data := None |} |}
         ≫= status)
  ∧ RestTemplateService.mapAndThrowError CaughtUndefined
    = inl ThrownTypeError
  ∧ RestTemplateService.mapAndThrowError CaughtNull = inl ThrownTypeError.
Proof. repeat split; (reflexivity || discriminate). Qed.

(** *** The auth hook, on references *)

Lemma alloc_spec (o : Obj) (σ : Heap) :
  σ !! (alloc o σ).1 = None
  ∧ (alloc o σ).2 !! (alloc o σ).1 = Some o
  ∧ ∀ k x, σ !! k = Some x → (alloc o σ).2 !! k = Some x.
Proof.
  unfold alloc. cbn [fst snd].
  assert (σ !! fresh (dom σ) = None) as Hfresh.
  { apply not_elem_of_dom, is_fresh. }
  split; [done|]. split; [apply lookup_insert_eq|].
  intros k x Hk. rewrite lookup_insert_ne; [done|]. congruence.
Qed.

(** C3: for every configuration reference, store and context that is absent
    or has no token, the default [applyAuth] returns the reference it was
    given and leaves the store as it was: no object is allocated. *)
Theorem applyAuth_without_token_is_identity
  (config : loc) (ctx : option RequestContext) (σ : Heap) :
  ctx = None ∨ (∃ c, ctx = Some c ∧ token c = None) →
  RestTemplateService.applyAuth config ctx σ = Some (config, σ).
Proof.
  intros [->|(c & -> & Hc)]; unfold RestTemplateService.applyAuth; cbn.
  - done.
  - by rewrite Hc.
Qed.

Ltac alloc_step l σ' H :=
  match goal with
  | |- context [alloc ?o ?σ] =>
      let E := fresh "E" in
      pose proof (alloc_spec o σ) as H;
      destruct (alloc o σ) as [l σ'] eqn:E;
      cbn [fst snd] in H
  end.

Lemma truthy_token (ctx : option RequestContext) :
  truthy (ctx ≫= token) = true ↔
  ∃ c tok, ctx = Some c ∧ token c = Some tok ∧ tok ≠ "".
Proof.
  split.
  - destruct ctx as [c|]; [|done]. cbn.
    destruct (token c) as [tok|] eqn:Htok; [|done]. cbn.
    intros Hn. exists c, tok. split; [done|]. split; [done|].
    apply String.eqb_neq. by destruct (tok =? "")%string.
  - intros (c & tok & -> & Htok & Hne). cbn. rewrite Htok. cbn.
    by rewrite (proj2 (String.eqb_neq tok "")).
Qed.

(** The run of [applyAuth] with a token: three objects are allocated, in
    this order: the copy of the headers, the headers with the bearer token,
    the configuration. *)
Lemma applyAuth_with_token_run (config : loc) (c : RequestContext)
  (tok : string) (σ : Heap) (cfg : ConfigObj) (orig : Headers) :
  token c = Some tok → tok ≠ "" →
  σ !! config = Some (ObjConfig cfg) →
  match o_headers cfg with
  | Some h => σ !! h = Some (ObjHeaders orig)
  | None => orig = ∅
  end →
  ∃ r σ' h',
    RestTemplateService.applyAuth config (Some c) σ = Some (r, σ')
    ∧ σ !! r = None
    ∧ (∀ l o, σ !! l = Some o → σ' !! l = Some o)
    ∧ σ' !! r = Some (ObjConfig {| o_headers := Some h';
                                   o_params := o_params cfg;
                                   o_timeout := o_timeout cfg;
                                   o_method := o_method cfg;
                                   o_url := o_url cfg;
                                   o_data := o_data cfg |})
    ∧ σ !! h' = None
    ∧ σ' !! h'
      = Some (ObjHeaders (<["Authorization" := "Bearer " +:+ tok]>
                            (spread ∅ (spread ∅ orig)))).
Proof.
  intros Htok Hne Hcfg Hh.
  unfold RestTemplateService.applyAuth. cbn [mbind option_bind]. rewrite Htok.
  cbn [truthy negb default].
  rewrite (proj2 (String.eqb_neq tok "")) by done. cbn [negb].
  unfold read_config. rewrite Hcfg. cbn [mbind option_bind].
  assert (∃ source σ0,
             match o_headers cfg with
             | Some h => Some (h, σ)
             | None => Some (alloc (ObjHeaders ∅) σ)
             end = Some (source, σ0)
             ∧ σ0 !! source = Some (ObjHeaders orig)
             ∧ ∀ l o, σ !! l = Some o → σ0 !! l = Some o)
    as (source & σ0 & -> & Hsrc & Hext0).
  { destruct (o_headers cfg) as [h|].
    - by exists h, σ.
    - subst orig. pose proof (alloc_spec (ObjHeaders ∅) σ) as (_ & ? & ?).
      destruct (alloc (ObjHeaders ∅) σ) as [l0 σ0]. by exists l0, σ0. }
  cbn [mbind option_bind].
  assert (read_headers σ0 source = Some orig) as ->
    by (unfold read_headers; by rewrite Hsrc).
  cbn [mbind option_bind].
  alloc_step l1 σ1 H1. destruct H1 as (Hnew1 & Hat1 & Hext1).
  assert (read_headers σ1 l1 = Some (spread ∅ orig)) as ->
    by (unfold read_headers; by rewrite Hat1).
  cbn [mbind option_bind id].
  alloc_step l2 σ2 H2. destruct H2 as (Hnew2 & Hat2 & Hext2).
  alloc_step r σ3 H3. destruct H3 as (Hnew3 & Hat3 & Hext3).
  exists r, σ3, l2.
  assert (∀ l o, σ !! l = Some o → σ2 !! l = Some o) as Hext by eauto.
  split; [done|]. split.
  { destruct (σ !! r) as [o|] eqn:Hr; [|done].
    apply Hext in Hr. congruence. }
  split; [eauto|]. split; [done|]. split; [|eauto].
  destruct (σ !! l2) as [o|] eqn:Hl; [|done].
  apply Hext0, Hext1 in Hl. congruence.
Qed.

(** C4, as the code has it: for a context whose token is a non-empty
    string and a configuration object in the store, the default [applyAuth]
    returns a reference to a new configuration object; every object that was
    in the store is unchanged (the input is not mutated); the new
    configuration's headers are a new object too, holding
    [Authorization: Bearer <token>] and, under every other name, exactly
    what the original headers hold; the other fields are those of the
    input. *)
Theorem applyAuth_with_token_adds_bearer (config : loc) (c : RequestContext)
  (tok : string) (σ : Heap) (cfg : ConfigObj) (orig : Headers) :
  token c = Some tok → tok ≠ "" →
  σ !! config = Some (ObjConfig cfg) →
  match o_headers cfg with
  | Some h => σ !! h = Some (ObjHeaders orig)
  | None => orig = ∅
  end →
  ∃ r σ' h' hs',
    RestTemplateService.applyAuth config (Some c) σ = Some (r, σ')
    ∧ r ≠ config ∧ σ !! r = None
    ∧ (∀ l o, σ !! l = Some o → σ' !! l = Some o)
    ∧ σ' !! r = Some (ObjConfig {| o_headers := Some h';
                                   o_params := o_params cfg;
                                   o_timeout := o_timeout cfg;
                                   o_method := o_method cfg;
                                   o_url := o_url cfg;
                                   o_data := o_data cfg |})
    ∧ σ !! h' = None
    ∧ σ' !! h' = Some (ObjHeaders hs')
    ∧ hs' !! "Authorization" = Some ("Bearer " +:+ tok)
    ∧ (∀ k, k ≠ "Authorization" → hs' !! k = orig !! k).
Proof.
  intros Htok Hne Hcfg Hh.
  destruct (applyAuth_with_token_run config c tok σ cfg orig Htok Hne Hcfg Hh)
    as (r & σ' & h' & Hrun & Hr & Hext & Hat & Hh' & Hhs).
  exists r, σ', h', (<["Authorization" := "Bearer " +:+ tok]>
                      (spread ∅ (spread ∅ orig))).
  split; [done|]. split; [congruence|]. do 5 (split; [done|]).
  split; [apply lookup_insert_eq|].
  intros k Hk. by rewrite lookup_insert_ne, !spread_empty_l.
Qed.

(** The hook used by the pipeline is [applyAuth] read on values. *)
Lemma applyAuth_value_agrees (config : loc) (ctx : option RequestContext)
  (σ : Heap) (v : AxiosRequestConfig) :
  config_value σ config = Some v →
  ∃ r σ',
    RestTemplateService.applyAuth config ctx σ = Some (r, σ')
    ∧ config_value σ' r = Some (RestTemplateService.applyAuth_value v ctx).
Proof.
  intros Hv. unfold RestTemplateService.applyAuth_value.
  destruct (truthy (ctx ≫= token)) eqn:Htruthy; cbn [negb].
  2:{ exists config, σ. unfold RestTemplateService.applyAuth.
      by rewrite Htruthy. }
  apply truthy_token in Htruthy as (c & tok & -> & Htok & Hne).
  unfold config_value, read_config in Hv.
  destruct (σ !! config) as [[|cfg]|] eqn:Hcfg; try done.
  cbn [mbind option_bind] in Hv.
  assert (∃ orig,
             match o_headers cfg with
             | Some h => σ !! h = Some (ObjHeaders orig)
             | None => orig = ∅
             end
             ∧ default ∅ (headers v) = orig
             ∧ params v = o_params cfg ∧ timeout v = o_timeout cfg
             ∧ method v = o_method cfg ∧ url v = o_url cfg
             ∧ data v = o_data cfg)
    as (orig & Hh & Horig & Hp & Ht & Hm & Hu & Hd).
  { destruct (o_headers cfg) as [h|].
    - unfold read_headers in Hv.
      destruct (σ !! h) as [[hs|]|]; simplify_eq/=. by exists hs.
    - simplify_eq/=. by exists ∅. }
  destruct (applyAuth_with_token_run config c tok σ cfg orig Htok Hne Hcfg Hh)
    as (r & σ' & h' & Hrun & Hr & Hext & Hat & Hh' & Hhs).
  exists r, σ'. split; [done|].
  unfold config_value, read_config, read_headers. rewrite Hat.
  cbn [mbind option_bind o_headers]. rewrite Hhs. cbn.
  rewrite Htok, Horig, Hp, Ht, Hm, Hu, Hd. done.
Qed.

(** ** Query strings *)

Lemma prefix_spec (sub s : string) :
  String.prefix sub s = true ↔ ∃ post, s = sub +:+ post.
Proof.
  revert s. induction sub as [|c sub IH]; intros s.
  - split; [intros _; exists s; reflexivity|by destruct s].
  - destruct s as [|c' s]; cbn; [split; [done|by intros [? ?]]|].
    destruct (Ascii.ascii_dec c c') as [->|Hne].
    + rewrite IH. split; intros [post Hpost]; exists post.
      * change (String c' sub +:+ post) with (String c' (sub +:+ post)).
        by rewrite Hpost.
      * change (String c' sub +:+ post) with (String c' (sub +:+ post))
          in Hpost.
        by injection Hpost.
    + split; [done|]. intros [post Hpost].
      change (String c sub +:+ post) with (String c (sub +:+ post)) in Hpost.
      by injection Hpost.
Qed.

Lemma includes_spec (s sub : string) :
  includes s sub = true ↔ ∃ pre post, s = pre +:+ sub +:+ post.
Proof.
  induction s as [|c s IH]; cbn [includes]; rewrite orb_true_iff, prefix_spec.
  - split.
    + intros [[post Hpost]|?]; [|done]. by exists "", post.
    + intros (pre & post & Heq). left. exists post.
      destruct pre; [done|discriminate].
  - rewrite IH. split.
    + intros [[post Hpost]|(pre & post & ->)].
      * by exists "", post.
      * by exists (String c pre), post.
    + intros (pre & post & Heq). destruct pre as [|c' pre].
      * left. by exists post.
      * right. exists pre, post.
        change (String c' pre +:+ sub +:+ post)
          with (String c' (pre +:+ sub +:+ post)) in Heq.
        by injection Heq.
Qed.

Lemma append_empty_r (a : string) : a +:+ "" = a.
Proof.
  induction a as [|c a IH]; [done|].
  change (String c (a +:+ "") = String c a). by rewrite IH.
Qed.

Lemma append_assoc (a b c : string) : (a +:+ b) +:+ c = a +:+ b +:+ c.
Proof.
  induction a as [|x a IH]; [done|].
  change (String x ((a +:+ b) +:+ c) = String x (a +:+ b +:+ c)).
  by rewrite IH.
Qed.

Lemma append_nonempty_r (a b : string) : b ≠ "" → a +:+ b ≠ "".
Proof. destruct a; [done|discriminate]. Qed.

Lemma encoded_pair_nonempty p : encoded_pair p ≠ "".
Proof. unfold encoded_pair. apply append_nonempty_r. discriminate. Qed.

Lemma concat_empty_cons (x : string) (l : list string) :
  String.concat "" (x :: l) = x +:+ String.concat "" l.
Proof. destruct l; [by rewrite append_empty_r|done]. Qed.

Lemma toString_from (usp : URLSearchParams.t) (output : string) :
  output ≠ "" →
  foldl (λ output '(name, value),
           (if decide (output = "") then output else output +:+ "&")
           +:+ URLSearchParams.encode name +:+ "="
           +:+ URLSearchParams.encode value)
        output usp
  = output +:+ String.concat "" (map (λ p, "&" +:+ encoded_pair p) usp).
Proof.
  revert output. induction usp as [|[n v] usp IH]; intros output Hne.
  - cbn. by rewrite append_empty_r.
  - cbn [foldl map]. destruct (decide (output = "")) as [|_]; [done|].
    rewrite IH by apply append_nonempty_r, (encoded_pair_nonempty (n, v)).
    rewrite concat_empty_cons. unfold encoded_pair. cbn [fst snd].
    by rewrite !append_assoc.
Qed.

Lemma concat_sep_cons (x : string) (l : list string) :
  String.concat "&" (x :: l)
  = x +:+ String.concat "" (map (λ y, "&" +:+ y) l).
Proof.
  revert x. induction l as [|y l IH]; intros x.
  - cbn. by rewrite append_empty_r.
  - change (String.concat "&" (x :: y :: l))
      with (x +:+ "&" +:+ String.concat "&" (y :: l)).
    rewrite IH. cbn [map]. by rewrite concat_empty_cons, !append_assoc.
Qed.

Lemma toString_concat (usp : URLSearchParams.t) :
  URLSearchParams.toString usp = String.concat "&" (map encoded_pair usp).
Proof.
  unfold URLSearchParams.toString. destruct usp as [|[n v] usp]; [done|].
  cbn [foldl map]. rewrite concat_sep_cons, map_map.
  destruct (decide ("" = "")) as [_|]; [|done].
  by rewrite toString_from by apply (encoded_pair_nonempty (n, v)).
Qed.

Section BuildUrl.
Context {Num : Type} (Number_toString : Num → string).

Lemma entries_appended (entries : list (string * QueryValue Num))
  (usp : URLSearchParams.t) :
  foldl (λ usp '(k, v),
           URLSearchParams.append usp k (js_String Number_toString v))
        usp entries
  = (usp ++ map (λ '(k, v), (k, js_String Number_toString v)) entries)%list.
Proof.
  revert usp. induction entries as [|[k v] entries IH]; intros usp; cbn.
  - by rewrite app_nil_r.
  - rewrite IH. unfold URLSearchParams.append. by rewrite <- app_assoc.
Qed.

(** C8: without params, or with an empty mapping, [buildUrl] returns the
    URL as it is; otherwise it returns the URL, then [&] if the URL
    contains a question mark and [?] if it does not, then the pairs
    [name=value] of all entries, names and string forms of the values
    URL-encoded, joined by [&]. *)
Theorem buildUrl_appends_query (url : string) :
  buildUrl Number_toString url None = url
  ∧ buildUrl Number_toString url (Some []) = url
  ∧ ∀ e es,
      ∃ sep,
        buildUrl Number_toString url (Some (e :: es))
        = url +:+ sep
              +:+ String.concat "&"
                    (map (λ '(k, v),
                            URLSearchParams.encode k +:+ "="
                            +:+ URLSearchParams.encode
                                  (js_String Number_toString v))
                         (e :: es))
        ∧ ((∃ pre post, url = pre +:+ "?" +:+ post) → sep = "&")
        ∧ (¬ (∃ pre post, url = pre +:+ "?" +:+ post) → sep = "?").
Proof.
  split; [done|]. split; [done|]. intros e es.
  exists (if includes url "?" then "&" else "?").
  split; [|split].
  - unfold buildUrl.
    destruct (decide (List.length (List.map fst (e :: es)) = 0%nat));
      [done|].
    cbn zeta. rewrite entries_appended, toString_concat.
    unfold URLSearchParams.new. cbn [app]. rewrite map_map.
    do 3 f_equal. apply map_ext. by intros [k v].
  - intros Hq. apply includes_spec in Hq. by rewrite Hq.
  - intros Hq. destruct (includes url "?") eqn:Hinc; [|done].
    apply includes_spec in Hinc. done.
Qed.

End BuildUrl.

(** The examples of the specification, and one that needs escaping. *)
Example buildUrl_examples :
  buildUrl_int "https://x/y" (Some []) = "https://x/y"
  ∧ buildUrl_int "https://x/y" (Some [("a", QNumber 1); ("b", QBoolean true)])
    = "https://x/y?a=1&b=true"
  ∧ buildUrl_int "https://x/y?z=1" (Some [("a", QString "q")])
    = "https://x/y?z=1&a=q"
  ∧ buildUrl_int "https://x/y" (Some [("q", QString "a b&c/d")])
    = "https://x/y?q=a+b%26c%2Fd".
Proof. by vm_compute. Qed.

(** ** Instances on the sample values *)

(** The two mapper cases of the test suite. *)
Example mapAndThrowError_test_suite :
  RestTemplateService.mapAndThrowError upstreamError
  = inl (ThrownHttpException
           {| getResponse :=
                {| message := "Unauthorized";
                   code := inl "INVALID_TOKEN";
                   details := Some (JsObject
                                      (JsField "reason"
                                               (JsString "token expired")
                                               JsNoField)) |};
              getStatus := 401 |})
  ∧ RestTemplateService.mapAndThrowError
      (CaughtValue
         {| err_message := Some "network timeout"; response := None |})
    = inl (ThrownHttpException
             {| getResponse := {| message := "network timeout";
                                  code := inl "UPSTREAM_ERROR";
                                  details := None |};
                getStatus := BAD_GATEWAY |}).
Proof. split; reflexivity. Qed.

(** A 401 followed by an answer, with a budget of 1: the second attempt's
    body is returned, after two transport calls and no mapper call. *)
Example request_retry_then_answer :
  let run :=
    AbstractRestTemplate.request "GET" "https://x/y" None None (Some 1)
      (mkPState [inl upstreamError; inr ok_response] []) in
  run.1 = inr (Body (JsString "ok"))
  ∧ world run.2 = []
  ∧ transport_attempts (trace run.2) = 2%nat
  ∧ Forall (λ ev, ∀ e, ev ≠ CallMapAndThrowError e) (trace run.2).
Proof.
  cbn zeta. rewrite !request_run. vm_compute.
  split; [done|]. split; [done|]. split; [done|].
  repeat constructor; discriminate.
Qed.

(** The same transport behind the public [get]: no second attempt. *)
Example get_does_not_retry :
  let run :=
    AbstractRestTemplate.get "https://x/y" None
      (mkPState [inl upstreamError; inr ok_response] []) in
  (∃ exn, run.1 = inl (ThrownHttpException exn) ∧ getStatus exn = 401)
  ∧ world run.2 = [inr ok_response]
  ∧ transport_attempts (trace run.2) = 1%nat.
Proof.
  cbn zeta. unfold AbstractRestTemplate.get. rewrite request_run. vm_compute.
  split; [by eexists|done].
Qed.

Lemma applyAuth_without_token_is_identity_witness :
  RestTemplateService.applyAuth 1%positive (Some context_without_token)
                                test_store
  = Some (1%positive, test_store).
Proof.
  apply applyAuth_without_token_is_identity.
  right. exists context_without_token. split; reflexivity.
Defined.

(** C4 as claimed fails in two ways: an [Authorization] header of the
    input does not survive, and a token that is set to the empty string
    yields the input reference, with no object allocated and no header
    added. *)
Lemma applyAuth_overwrites_or_skips :
  (header_of basic_auth_store 1%positive "Authorization" = Some "Basic abc"
   ∧ ∃ r σ',
       RestTemplateService.applyAuth 1%positive (Some context_with_token)
                                     basic_auth_store = Some (r, σ')
       ∧ header_of σ' r "Authorization" = Some "Bearer access-token")
  ∧ RestTemplateService.applyAuth 1%positive (Some context_with_empty_token)
                                  test_store
    = Some (1%positive, test_store).
Proof.
  split; [split|]; [by vm_compute| |by vm_compute].
  destruct (RestTemplateService.applyAuth 1%positive (Some context_with_token)
              basic_auth_store) as [[r σ']|] eqn:Hrun;
    [|by vm_compute in Hrun].
  exists r, σ'. split; [done|].
  vm_compute in Hrun. injection Hrun as <- <-. by vm_compute.
Qed.

Lemma applyAuth_with_token_adds_bearer_witness :
  ∃ r σ' h' hs',
    RestTemplateService.applyAuth 1%positive (Some context_with_token)
                                  test_store = Some (r, σ')
    ∧ r ≠ 1%positive ∧ test_store !! r = None
    ∧ (∀ l o, test_store !! l = Some o → σ' !! l = Some o)
    ∧ σ' !! r = Some (ObjConfig {| o_headers := Some h';
                                   o_params := None;
                                   o_timeout := Some 5000;
                                   o_method := None;
                                   o_url := None;
                                   o_data := None |})
    ∧ test_store !! h' = None
    ∧ σ' !! h' = Some (ObjHeaders hs')
    ∧ hs' !! "Authorization" = Some "Bearer access-token"
    ∧ (∀ k, k ≠ "Authorization" →
         hs' !! k = ({[ "X-Trace" := "trace-123" ]} : Headers) !! k).
Proof.
  apply (applyAuth_with_token_adds_bearer
           1%positive context_with_token "access-token" test_store
           test_config {[ "X-Trace" := "trace-123" ]}).
  - reflexivity.
  - discriminate.
  - reflexivity.
  - reflexivity.
Defined.

Lemma verbs_resolve_by_responseMode_witness :
  (AbstractRestTemplate.get "https://x/y" (Some full_response_options)
     answering).1
  = inr (Envelope ok_response)
  ∧ (AbstractRestTemplatePlain.post "https://x/y" (Some (JsString "b")) None
       answering).1
    = inr (Body (JsString "ok")).
Proof.
  split.
  - apply (verbs_resolve_by_responseMode
             "https://x/y" None (Some full_response_options) answering
             "GET" None _
             (AbstractRestTemplate.buildBaseConfig
                (Some full_response_options))
             [inr ok_response] ok_response []).
    + apply elem_of_app. left. apply list_elem_of_here.
    + reflexivity.
    + reflexivity.
    + reflexivity.
  - apply (verbs_resolve_by_responseMode
             "https://x/y" (Some (JsString "b")) None answering
             "POST" (Some (JsString "b")) _
             (AbstractRestTemplate.buildBaseConfig None)
             [inr ok_response] ok_response []).
    + apply elem_of_app. right.
      apply list_elem_of_further, list_elem_of_here.
    + reflexivity.
    + reflexivity.
    + left. reflexivity.
Defined.

Lemma applyAuth_gets_bare_config_witness :
  ∃ added,
    trace (AbstractRestTemplate.request "GET" "https://x/y" None None
             (Some 1) unauthorized_twice).2
    = (trace unauthorized_twice ++ added)%list
    ∧ (∀ c ctx, CallApplyAuth c ctx ∈ added →
         method c = None ∧ url c = None ∧ data c = None)
    ∧ (∀ c, CallTransport c ∈ added →
         method c = Some "GET" ∧ url c = Some "https://x/y" ∧ data c = None)
    ∧ (∀ before c after,
         added = (before ++ CallTransport c :: after)%list →
         ∃ earlier c0 ctx,
           before = (earlier ++ [CallApplyAuth c0 ctx])%list
           ∧ method c0 = None ∧ url c0 = None ∧ data c0 = None).
Proof.
  apply (applyAuth_gets_bare_config
           "GET" "https://x/y" None None (Some 1) unauthorized_twice).
  left. reflexivity.
Defined.



Lemma public_verbs_do_not_retry_witness :
  ∃ exn added,
    mapAndThrowError upstreamError = inl exn
    ∧ AbstractRestTemplate.get "https://x/y" None unauthorized_twice
      = (inl exn,
         mkPState
           (world (AbstractRestTemplate.request_try "GET" "https://x/y"
                     None None unauthorized_twice).2)
           (trace (AbstractRestTemplate.request_try "GET" "https://x/y"
                     None None unauthorized_twice).2
            ++ [CallMapAndThrowError upstreamError]))
    ∧ trace (AbstractRestTemplate.request_try "GET" "https://x/y"
               None None unauthorized_twice).2
      = (trace unauthorized_twice ++ added)%list
    ∧ (transport_attempts added ≤ 1)%nat.
Proof.
  apply (proj1 (proj2 (public_verbs_do_not_retry
                         "https://x/y" None None unauthorized_twice))
           "GET" None (AbstractRestTemplate.get "https://x/y" None)
           upstreamError
           (AbstractRestTemplate.request_try "GET" "https://x/y" None None
              unauthorized_twice).2).
  - apply list_elem_of_here.
  - reflexivity.
  - reflexivity.
Defined.

(** * Further properties *)

(** ** The retry chain *)
Section RetryChain.
Context {W Exn : Type} `{!RestTemplate W Exn}.

(** Rule induction on the runs of the retry-capable routine: a run answers
    at once, or raises the [TypeError] of the catch block at once, or maps
    a failure at once, or is the run that follows a failed attempt with
    status 401 under a positive budget. *)
Lemma request_run_ind m u b options
  (P : option Z → PState W → (Exn + Resolved) * PState W → Prop) :
  (∀ arg s r s',
      AbstractRestTemplate.request_try m u b options s = (inr r, s') →
      P arg s (inr r, s')) →
  (∀ arg s e s',
      AbstractRestTemplate.request_try m u b options s = (inl e, s') →
      is_nullish e = true →
      P arg s (inl TypeError, s')) →
  (∀ arg s e s',
      AbstractRestTemplate.request_try m u b options s = (inl e, s') →
      is_nullish e = false →
      ¬ (response_status e = Some 401 ∧ default 0 arg > 0) →
      P arg s (call_mapAndThrowError e s')) →
  (∀ arg s e s' out,
      AbstractRestTemplate.request_try m u b options s = (inl e, s') →
      response_status e = Some 401 → default 0 arg > 0 →
      P (Some (default 0 arg - 1)) s' out →
      P arg s out) →
  ∀ arg s, P arg s (AbstractRestTemplate.request m u b options arg s).
Proof.
  intros Hanswer Htype Hmap Hretry arg.
  remember (Z.to_nat (default 0 arg)) as n eqn:Hn.
  revert arg Hn. induction n as [|n IH]; intros arg Hn s;
    rewrite request_run;
    destruct (AbstractRestTemplate.request_try m u b options s)
      as [[e|r] s'] eqn:Htry; try by apply Hanswer.
  - destruct (is_nullish e) eqn:Hnull; [by eapply Htype|].
    destruct (decide _) as [[_ Hpos]|Hno]; [lia|]. by eapply Hmap.
  - destruct (is_nullish e) eqn:Hnull; [by eapply Htype|].
    destruct (decide _) as [[H401 Hpos]|Hno]; [|by eapply Hmap].
    eapply Hretry; [done..|]. apply IH. cbn. lia.
Qed.

Lemma auth_calls_app (l1 l2 : list Event) :
  auth_calls (l1 ++ l2) = (auth_calls l1 + auth_calls l2)%nat.
Proof. unfold auth_calls. by rewrite List.filter_app, length_app. Qed.

Lemma mapper_calls_app (l1 l2 : list Event) :
  mapper_calls (l1 ++ l2) = (mapper_calls l1 + mapper_calls l2)%nat.
Proof. unfold mapper_calls. by rewrite List.filter_app, length_app. Qed.

(** What one attempt adds to the trace. *)
Lemma attempt_added base m u b options (s : PState W) res s' :
  attempt base m u b options s (res, s') →
  ∃ added,
    trace s' = (trace s ++ added)%list
    ∧ auth_calls added = 1%nat
    ∧ mapper_calls added = 0%nat
    ∧ (transport_attempts added ≤ 1)%nat
    ∧ (∀ c ctx, CallApplyAuth c ctx ∈ added →
         c = base ∧ ctx = options ≫= context)
    ∧ (∀ c, CallTransport c ∈ added →
         ∃ w withAuth w',
           applyAuth base (options ≫= context) w = (inr withAuth, w')
           ∧ c = finalized withAuth m u b).
Proof.
  inversion 1 as [e w1 Ha|withAuth w1 e w2 Ha Hh|withAuth w1 resp w2 Ha Hh];
    subst; eexists; (split; [done|]); cbn;
    (split; [done|]); (split; [done|]); (split; [lia|]); split.
  all: intros; repeat match goal with
       | H : _ ∈ _ :: _ |- _ => apply elem_of_cons in H as [?|H]
       | H : _ ∈ [] |- _ => by apply elem_of_nil in H
       end; simplify_eq/=; eauto.
Qed.

Lemma attempt_added_Forall (Q : Event → Prop) base m u b options
  (s : PState W) res s' :
  Q (CallApplyAuth base (options ≫= context)) →
  (∀ w withAuth w',
      applyAuth base (options ≫= context) w = (inr withAuth, w') →
      Q (CallTransport (finalized withAuth m u b))) →
  attempt base m u b options s (res, s') →
  ∃ added, trace s' = (trace s ++ added)%list ∧ Forall Q added.
Proof.
  intros Hauth Htransport Hatt.
  destruct (attempt_added _ _ _ _ _ _ _ _ Hatt)
    as (added & Htr & _ & _ & _ & Ha & Ht).
  exists added. split; [done|]. apply Forall_forall. intros [c ctx|c|e] Hin.
  - by destruct (Ha c ctx Hin) as [-> ->].
  - destruct (Ht c Hin) as (w & withAuth & w' & Hw & ->). eauto.
  - exfalso. clear -Hatt Htr Hin.
    inversion Hatt; subst; cbn in Htr; apply app_inv_head in Htr; subst;
      repeat (apply elem_of_cons in Hin as [?|Hin]; [done|]);
      by apply elem_of_nil in Hin.
Qed.

(** A property of events that holds of what an attempt can add and of
    mapper calls holds of everything a run adds. *)
Lemma request_added_Forall (Q : Event → Prop) m u b options :
  Q (CallApplyAuth (AbstractRestTemplate.buildBaseConfig options)
                   (options ≫= context)) →
  (∀ w withAuth w',
      applyAuth (AbstractRestTemplate.buildBaseConfig options)
                (options ≫= context) w = (inr withAuth, w') →
      Q (CallTransport (finalized withAuth m u b))) →
  (∀ e, Q (CallMapAndThrowError e)) →
  ∀ arg (s : PState W),
    ∃ added,
      trace (AbstractRestTemplate.request m u b options arg s).2
      = (trace s ++ added)%list
      ∧ Forall Q added.
Proof.
  intros Hauth Htransport Hmapper.
  apply (request_run_ind m u b options
           (λ _ s out, ∃ added, trace out.2 = (trace s ++ added)%list
                                ∧ Forall Q added)).
  - intros _ s r s' Htry.
    pose proof (request_try_attempt m u b options s) as Hatt.
    rewrite Htry in Hatt.
    by apply (attempt_added_Forall Q) in Hatt.
  - intros _ s e s' Htry _.
    pose proof (request_try_attempt m u b options s) as Hatt.
    rewrite Htry in Hatt.
    by apply (attempt_added_Forall Q) in Hatt.
  - intros _ s e s' Htry _ _.
    pose proof (request_try_attempt m u b options s) as Hatt.
    rewrite Htry in Hatt.
    apply (attempt_added_Forall Q) in Hatt as (added & Htr & HQ); [|done..].
    destruct (call_mapAndThrowError_raises (A := Resolved) e s')
      as (exn & _ & ->).
    exists (added ++ [CallMapAndThrowError e])%list. cbn [snd trace].
    split; [by rewrite Htr, app_assoc|].
    apply Forall_app. split; [done|]. by constructor.
  - intros _ s e s' out Htry _ _ (added' & Htr' & HQ').
    pose proof (request_try_attempt m u b options s) as Hatt.
    rewrite Htry in Hatt.
    apply (attempt_added_Forall Q) in Hatt as (added & Htr & HQ); [|done..].
    exists (added ++ added')%list.
    split; [by rewrite Htr', Htr, app_assoc|].
    by apply Forall_app.
Qed.

(** X1: a run of the retry-capable routine calls the auth hook at least
    once and at most once more than the budget (a budget below 0 counting
    as 0), and never calls the transport more often than the auth hook; a
    run of the routine without the retry branch calls the auth hook exactly
    once and the transport at most once. *)
Theorem request_calls_bounded m u b options arg (s : PState W) :
  (∃ added,
      trace (AbstractRestTemplate.request m u b options arg s).2
      = (trace s ++ added)%list
      ∧ (1 ≤ auth_calls added)%nat
      ∧ (auth_calls added ≤ 1 + Z.to_nat (default 0%Z arg))%nat
      ∧ (transport_attempts added ≤ auth_calls added)%nat)
  ∧ (∃ added,
       trace (AbstractRestTemplatePlain.request m u b options s).2
       = (trace s ++ added)%list
       ∧ auth_calls added = 1%nat
       ∧ (transport_attempts added ≤ 1)%nat).
Proof.
  split.
  - revert arg s.
    apply (request_run_ind m u b options
             (λ arg s out,
                ∃ added,
                  trace out.2 = (trace s ++ added)%list
                  ∧ (1 ≤ auth_calls added)%nat
                  ∧ (auth_calls added ≤ 1 + Z.to_nat (default 0%Z arg))%nat
                  ∧ (transport_attempts added ≤ auth_calls added)%nat)).
    + intros arg s r s' Htry.
      pose proof (request_try_attempt m u b options s) as Hatt.
      rewrite Htry in Hatt.
      apply attempt_added in Hatt as (added & Htr & Ha & _ & Ht & _).
      exists added. cbn [snd]. repeat split; [done|lia..].
    + intros arg s e s' Htry _.
      pose proof (request_try_attempt m u b options s) as Hatt.
      rewrite Htry in Hatt.
      apply attempt_added in Hatt as (added & Htr & Ha & _ & Ht & _).
      exists added. cbn [snd]. repeat split; [done|lia..].
    + intros arg s e s' Htry _ _.
      pose proof (request_try_attempt m u b options s) as Hatt.
      rewrite Htry in Hatt.
      apply attempt_added in Hatt as (added & Htr & Ha & _ & Ht & _).
      destruct (call_mapAndThrowError_raises (A := Resolved) e s')
        as (exn & _ & ->).
      exists (added ++ [CallMapAndThrowError e])%list. cbn [snd trace].
      rewrite auth_calls_app, transport_attempts_app. cbn.
      repeat split; [by rewrite Htr, app_assoc|lia..].
    + intros arg s e s' out Htry _ Hpos (added' & Htr' & Hge & Hle & Ht').
      pose proof (request_try_attempt m u b options s) as Hatt.
      rewrite Htry in Hatt.
      apply attempt_added in Hatt as (added & Htr & Ha & _ & Ht & _).
      exists (added ++ added')%list.
      rewrite auth_calls_app, transport_attempts_app.
      cbn [default id] in Hle.
      repeat split; [by rewrite Htr', Htr, app_assoc|lia..].
  - rewrite plain_request_run.
    pose proof (plain_request_try_attempt m u b options s) as Hatt.
    destruct (AbstractRestTemplatePlain.request_try m u b options s)
      as [[e|r] s'].
    + apply attempt_added in Hatt as (added & Htr & Ha & _ & Ht & _).
      destruct (call_mapAndThrowError_raises (A := Resolved) e s')
        as (exn & _ & ->).
      exists (added ++ [CallMapAndThrowError e])%list. cbn [snd trace].
      rewrite auth_calls_app, transport_attempts_app. cbn.
      repeat split; [by rewrite Htr, app_assoc|lia..].
    + apply attempt_added in Hatt as (added & Htr & Ha & _ & Ht & _).
      exists added. by repeat split.
Qed.

(** X2: a run that answers never calls the error mapper.  A run that
    raises does so on the failure of an attempt: when that failure is
    [undefined] or [null], the run raises a [TypeError] and the mapper is
    not called at all; otherwise the mapper is called exactly once, as the
    last call of the run, with that failure, and the run raises what the
    mapper raised for it. *)
Theorem request_maps_last_failure m u b options arg (s : PState W) :
  ∃ added,
    trace (AbstractRestTemplate.request m u b options arg s).2
    = (trace s ++ added)%list
    ∧ (∀ r, (AbstractRestTemplate.request m u b options arg s).1 = inr r →
         mapper_calls added = 0%nat)
    ∧ (∀ exn,
         (AbstractRestTemplate.request m u b options arg s).1 = inl exn →
         ∃ e s0 s1,
           AbstractRestTemplate.request_try m u b options s0 = (inl e, s1)
           ∧ if is_nullish e
             then exn = TypeError
                  ∧ mapper_calls added = 0%nat
                  ∧ trace s1 = (trace s ++ added)%list
             else ∃ before,
                 added = (before ++ [CallMapAndThrowError e])%list
                 ∧ mapper_calls before = 0%nat
                 ∧ mapAndThrowError e = inl exn
                 ∧ trace s1 = (trace s ++ before)%list).
Proof.
  revert arg s.
  apply (request_run_ind m u b options
           (λ _ s out,
              ∃ added,
                trace out.2 = (trace s ++ added)%list
                ∧ (∀ r, out.1 = inr r → mapper_calls added = 0%nat)
                ∧ (∀ exn, out.1 = inl exn →
                     ∃ e s0 s1,
                       AbstractRestTemplate.request_try m u b options s0
                       = (inl e, s1)
                       ∧ if is_nullish e
                         then exn = TypeError
                              ∧ mapper_calls added = 0%nat
                              ∧ trace s1 = (trace s ++ added)%list
                         else ∃ before,
                             added
                             = (before ++ [CallMapAndThrowError e])%list
                             ∧ mapper_calls before = 0%nat
                             ∧ mapAndThrowError e = inl exn
                             ∧ trace s1 = (trace s ++ before)%list))).
  - intros _ s r s' Htry.
    pose proof (request_try_attempt m u b options s) as Hatt.
    rewrite Htry in Hatt.
    apply attempt_added in Hatt as (added & Htr & _ & Hm & _).
    exists added. cbn [fst snd]. split; [done|]. split; [done|].
    intros exn [=].
  - intros _ s e s' Htry Hnull.
    pose proof (request_try_attempt m u b options s) as Hatt.
    rewrite Htry in Hatt.
    apply attempt_added in Hatt as (added & Htr & _ & Hm & _).
    exists added. cbn [fst snd]. split; [done|]. split; [done|].
    intros exn [= <-]. exists e, s, s'. split; [done|]. by rewrite Hnull.
  - intros _ s e s' Htry Hvalue _.
    pose proof (request_try_attempt m u b options s) as Hatt.
    rewrite Htry in Hatt.
    apply attempt_added in Hatt as (added & Htr & _ & Hm & _).
    destruct (call_mapAndThrowError_raises (A := Resolved) e s')
      as (exn & Hexn & ->).
    exists (added ++ [CallMapAndThrowError e])%list. cbn [fst snd trace].
    split; [by rewrite Htr, app_assoc|]. split; [intros r [=]|].
    intros exn' [= <-]. exists e, s, s'. split; [done|]. rewrite Hvalue.
    by exists added.
  - intros _ s e s' out Htry _ _ (added' & Htr' & Hok & Hraise).
    pose proof (request_try_attempt m u b options s) as Hatt.
    rewrite Htry in Hatt.
    apply attempt_added in Hatt as (added & Htr & _ & Hm & _).
    exists (added ++ added')%list.
    split; [by rewrite Htr', Htr, app_assoc|]. split.
    + intros r Hr. rewrite mapper_calls_app, (Hok r Hr). lia.
    + intros exn Hexn.
      destruct (Hraise exn Hexn) as (e' & s0 & s1 & Htry' & Hcase).
      exists e', s0, s1. split; [done|].
      destruct (is_nullish e').
      * destruct Hcase as (-> & Hm' & Htr1).
        split; [done|]. split; [rewrite mapper_calls_app; lia|].
        by rewrite Htr1, Htr, app_assoc.
      * destruct Hcase as (before & -> & Hm' & Hmap & Htr1).
        exists (added ++ before)%list.
        split; [by rewrite app_assoc|].
        split; [rewrite mapper_calls_app; lia|]. split; [done|].
        by rewrite Htr1, Htr, app_assoc.
Qed.

(** X3: whatever the hooks do, every call of the auth hook in a run,
    retries included, gets the same arguments: the base configuration built
    from the options, and the options' context; and every configuration
    handed to the transport is a configuration the auth hook returned for
    those arguments, with the caller's method, URL and body written over
    it. *)
Theorem request_repeats_auth_arguments m u b options arg (s : PState W) :
  ∃ added,
    trace (AbstractRestTemplate.request m u b options arg s).2
    = (trace s ++ added)%list
    ∧ (∀ c ctx, CallApplyAuth c ctx ∈ added →
         c = AbstractRestTemplate.buildBaseConfig options
         ∧ ctx = options ≫= context)
    ∧ (∀ c, CallTransport c ∈ added →
         ∃ w withAuth w',
           applyAuth (AbstractRestTemplate.buildBaseConfig options)
                     (options ≫= context) w = (inr withAuth, w')
           ∧ c = finalized withAuth m u b).
Proof.
  destruct (request_added_Forall
              (λ ev, match ev with
                     | CallApplyAuth c ctx =>
                         c = AbstractRestTemplate.buildBaseConfig options
                         ∧ ctx = options ≫= context
                     | CallTransport c =>
                         ∃ w withAuth w',
                           applyAuth
                             (AbstractRestTemplate.buildBaseConfig options)
                             (options ≫= context) w = (inr withAuth, w')
                           ∧ c = finalized withAuth m u b
                     | CallMapAndThrowError _ => True
                     end)
              m u b options) with arg s as (added & Htr & HQ);
    [done|by eauto|done|].
  exists added. split; [done|]. rewrite Forall_forall in HQ. split.
  - intros c ctx Hin. apply (HQ _ Hin).
  - intros c Hin. apply (HQ _ Hin).
Qed.

(** When every attempt fails with status 401, the budget is used up. *)
Lemma request_all_unauthorized m u b options (k : nat) :
  (∀ s : PState W,
      ∃ e s' added,
        AbstractRestTemplate.request_try m u b options s = (inl e, s')
        ∧ response_status e = Some 401
        ∧ trace s' = (trace s ++ added)%list
        ∧ auth_calls added = 1%nat
        ∧ transport_attempts added = k
        ∧ mapper_calls added = 0%nat) →
  ∀ n arg (s : PState W),
    Z.to_nat (default 0 arg) = n →
    ∃ added exn,
      AbstractRestTemplate.request m u b options arg s
      = (inl exn, mkPState
                    (world (AbstractRestTemplate.request m u b options
                              arg s).2)
                    (trace s ++ added))
      ∧ auth_calls added = S n
      ∧ transport_attempts added = (k * S n)%nat
      ∧ mapper_calls added = 1%nat.
Proof.
  intros Hall n. induction n as [|n IH]; intros arg s Hn;
    destruct (Hall s) as (e & s' & added & Htry & H401 & Htr & Ha & Ht & Hm).
  - destruct (request_maps m u b options arg s e s' Htry
                (status_not_nullish e 401 H401))
      as (exn & _ & Hrun); [lia|].
    exists (added ++ [CallMapAndThrowError e])%list, exn.
    rewrite Hrun. cbn [snd world].
    rewrite auth_calls_app, transport_attempts_app, mapper_calls_app, Htr,
      app_assoc. cbn. repeat split; lia.
  - rewrite (request_retries m u b options arg s e s' Htry H401) by lia.
    destruct (IH (Some (default 0 arg - 1)) s')
      as (added' & exn & Hrun & Ha' & Ht' & Hm'); [cbn; lia|].
    exists (added ++ added')%list, exn.
    rewrite Hrun at 1. cbn [snd world].
    rewrite auth_calls_app, transport_attempts_app, mapper_calls_app, Htr,
      app_assoc. repeat split; lia.
Qed.

(** X4: with an auth hook that does not throw and a transport that fails
    every request with status 401, a run with budget [n] makes exactly
    [n + 1] auth calls and [n + 1] transport calls (a budget below 0
    counting as 0), then one mapper call, and raises. *)
Theorem request_uses_up_budget m u b options arg (s : PState W) :
  (∀ cfg ctx w, ∃ cfg' w', applyAuth cfg ctx w = (inr cfg', w')) →
  (∀ cfg w, ∃ e w',
      http_request cfg w = (inl e, w') ∧ response_status e = Some 401) →
  ∃ added exn,
    (AbstractRestTemplate.request m u b options arg s).1 = inl exn
    ∧ trace (AbstractRestTemplate.request m u b options arg s).2
      = (trace s ++ added)%list
    ∧ auth_calls added = S (Z.to_nat (default 0 arg))
    ∧ transport_attempts added = S (Z.to_nat (default 0 arg))
    ∧ mapper_calls added = 1%nat.
Proof.
  intros Hauth Hhttp.
  destruct (request_all_unauthorized m u b options 1) with
    (n := Z.to_nat (default 0 arg)) (arg := arg) (s := s)
    as (added & exn & Hrun & Ha & Ht & Hm); [|done|].
  - intros s0.
    pose proof (request_try_attempt m u b options s0) as Hatt.
    destruct (AbstractRestTemplate.request_try m u b options s0)
      as [res s'].
    inversion Hatt as [e w1 Ha|withAuth w1 e w2 Ha Hh|withAuth w1 resp w2 Ha Hh];
      subst.
    + destruct (Hauth (AbstractRestTemplate.buildBaseConfig options)
                  (options ≫= context) (world s0)) as (c' & w' & Hc).
      rewrite Hc in Ha. done.
    + destruct (Hhttp (finalized withAuth m u b) w1) as (e' & w' & He & H401).
      rewrite He in Hh. simplify_eq/=. by eexists _, _, _.
    + destruct (Hhttp (finalized withAuth m u b) w1) as (e' & w' & He & H401).
      rewrite He in Hh. done.
  - exists added, exn. rewrite Hrun. cbn [fst snd trace].
    repeat split; [done..|lia|done].
Qed.

(** X5: a failure with status 401 thrown by the auth hook is retried like
    a transport failure: with an auth hook that always throws such a
    failure, a run with budget [n] makes exactly [n + 1] auth calls and no
    transport call, then one mapper call, and raises. *)
Theorem request_retries_auth_failures m u b options arg (s : PState W) :
  (∀ cfg ctx w, ∃ e w',
      applyAuth cfg ctx w = (inl e, w') ∧ response_status e = Some 401) →
  ∃ added exn,
    (AbstractRestTemplate.request m u b options arg s).1 = inl exn
    ∧ trace (AbstractRestTemplate.request m u b options arg s).2
      = (trace s ++ added)%list
    ∧ auth_calls added = S (Z.to_nat (default 0 arg))
    ∧ transport_attempts added = 0%nat
    ∧ mapper_calls added = 1%nat.
Proof.
  intros Hauth.
  destruct (request_all_unauthorized m u b options 0) with
    (n := Z.to_nat (default 0 arg)) (arg := arg) (s := s)
    as (added & exn & Hrun & Ha & Ht & Hm); [|done|].
  - intros s0.
    pose proof (request_try_attempt m u b options s0) as Hatt.
    destruct (AbstractRestTemplate.request_try m u b options s0)
      as [res s'].
    destruct (Hauth (AbstractRestTemplate.buildBaseConfig options)
                (options ≫= context) (world s0)) as (e' & w' & He & H401).
    inversion Hatt as [e w1 Ha|withAuth w1 e w2 Ha Hh|withAuth w1 resp w2 Ha Hh];
      subst; rewrite He in Ha; simplify_eq/=.
    by eexists _, _, _.
  - exists added, exn. rewrite Hrun. cbn [fst snd trace].
    repeat split; [done..|lia|done].
Qed.

End RetryChain.

(** ** The default service, end to end *)
Section DefaultService.
Context {W : Type}
  (http : AxiosRequestConfig → W → (Caught + AxiosResponse) * W).

Local Instance default_service : RestTemplate W ServiceException :=
  RestTemplateService.service http.

Lemma applyAuth_value_headers (base : AxiosRequestConfig)
  (ctx : option RequestContext) (merged : Headers) :
  headers base = Some merged →
  ∃ hs,
    headers (RestTemplateService.applyAuth_value base ctx) = Some hs
    ∧ (∀ tok, ctx ≫= token = Some tok → tok ≠ "" →
         hs !! "Authorization" = Some ("Bearer " +:+ tok))
    ∧ (∀ k, k ≠ "Authorization" ∨ truthy (ctx ≫= token) = false →
         hs !! k = merged !! k).
Proof.
  intros Hm. unfold RestTemplateService.applyAuth_value.
  destruct (truthy (ctx ≫= token)) eqn:Htruthy; cbn [negb].
  - cbn [headers]. eexists. split; [done|]. rewrite Hm. cbn [default].
    rewrite !spread_empty_l. split.
    + intros tok -> _. apply lookup_insert_eq.
    + intros k [Hk|[=]]. by rewrite lookup_insert_ne.
  - exists merged. split; [done|]. split; [|done].
    intros tok Htok Hne. rewrite Htok in Htruthy. cbn in Htruthy.
    by rewrite (proj2 (String.eqb_neq tok "")) in Htruthy.
Qed.

(** X6: with the default service over any transport, every configuration
    that reaches the transport, retries included, has the caller's method,
    URL and body, the per-call params, the per-call timeout or 10000, and
    headers that hold [Authorization: Bearer <token>] when the context has
    a non-empty token (a per-call [Authorization] header gives way to it)
    and otherwise, under every name, the per-call header or else the
    default header. *)
Theorem default_service_wire_config m u b options arg (s : PState W) :
  ∃ added,
    trace (AbstractRestTemplate.request m u b options arg s).2
    = (trace s ++ added)%list
    ∧ ∀ c, CallTransport c ∈ added →
        ∃ hs,
          headers c = Some hs
          ∧ (∀ tok, (options ≫= context) ≫= token = Some tok → tok ≠ "" →
               hs !! "Authorization" = Some ("Bearer " +:+ tok))
          ∧ (∀ k, k ≠ "Authorization"
                  ∨ truthy ((options ≫= context) ≫= token) = false →
               hs !! k
               = (default ∅ (options ≫= opt_headers) !! k)
                 ?? (RestTemplateService.getDefaultHeaders !! k))
          ∧ params c = options ≫= opt_params
          ∧ timeout c = Some (default 10000 (options ≫= timeoutMs))
          ∧ method c = Some m ∧ url c = Some u ∧ data c = b.
Proof.
  destruct (request_added_Forall
              (λ ev, ∀ c, ev = CallTransport c →
                 ∃ hs,
                   headers c = Some hs
                   ∧ (∀ tok, (options ≫= context) ≫= token = Some tok →
                        tok ≠ "" →
                        hs !! "Authorization" = Some ("Bearer " +:+ tok))
                   ∧ (∀ k, k ≠ "Authorization"
                           ∨ truthy ((options ≫= context) ≫= token) = false →
                        hs !! k
                        = (default ∅ (options ≫= opt_headers) !! k)
                          ?? (RestTemplateService.getDefaultHeaders !! k))
                   ∧ params c = options ≫= opt_params
                   ∧ timeout c = Some (default 10000 (options ≫= timeoutMs))
                   ∧ method c = Some m ∧ url c = Some u ∧ data c = b)
              m u b options) with arg s as (added & Htr & HQ).
  - done.
  - intros w withAuth w' [= <-] c [= <-].
    destruct (applyAuth_value_headers
                (AbstractRestTemplate.buildBaseConfig options)
                (options ≫= context) _ eq_refl)
      as (hs & Hhs & Hauth & Hother).
    exists hs. cbn [finalized headers params timeout method url data].
    split; [done|]. split; [done|]. split.
    { intros k Hk. rewrite (Hother k Hk). apply spread_lookup. }
    repeat split; try done;
      unfold RestTemplateService.applyAuth_value; by destruct (truthy _).
  - done.
  - exists added. split; [done|]. intros c Hin.
    rewrite Forall_forall in HQ. by apply (HQ _ Hin).
Qed.

(** X7: with the default service, a public verb method of either template
    whose transport call fails makes that one transport call only and
    raises what the default mapper raises for the failure.  For a failure
    other than [undefined] and [null] that is an [HttpException], made by
    one call of the mapper, whose status is the upstream status, status 401
    included, or 502 when the failure has no response or its response has
    no status.  For [undefined] and [null] it is a [TypeError]: the
    retry-capable template raises it from its own catch block, the mapper
    not called, and the template without the retry branch from its one
    call of the mapper. *)
Theorem default_service_verbs_translate_failure u b options (s : PState W)
  (retrying : bool) m body call e w' :
  (m, body, call)
    ∈ (if retrying then retry_verbs u b options
       else plain_verbs u b options) →
  http (finalized (RestTemplateService.applyAuth_value
                     (AbstractRestTemplate.buildBaseConfig options)
                     (options ≫= context))
                  m u body)
       (world s) = (inl e, w') →
  ∃ exn added,
    call s = (inl exn, mkPState w' (trace s ++ added))
    ∧ RestTemplateService.mapAndThrowError e = inl exn
    ∧ transport_attempts added = 1%nat
    ∧ match e with
      | CaughtValue ax =>
          ∃ httpException,
            exn = ThrownHttpException httpException
            ∧ getStatus httpException = default 502 (response ax ≫= status)
            ∧ mapper_calls added = 1%nat
      | CaughtUndefined | CaughtNull =>
          exn = ThrownTypeError
          ∧ mapper_calls added = if retrying then 0%nat else 1%nat
      end.
Proof.
  intros Hin Hhttp.
  assert (AbstractRestTemplate.request_try m u body options s
          = (inl e,
             mkPState w'
               (trace s
                ++ [CallApplyAuth
                      (AbstractRestTemplate.buildBaseConfig options)
                      (options ≫= context);
                    CallTransport
                      (finalized
                         (RestTemplateService.applyAuth_value
                            (AbstractRestTemplate.buildBaseConfig options)
                            (options ≫= context)) m u body)]))) as Htry.
  { pose proof (request_try_attempt m u body options s) as Hatt'.
    inversion Hatt' as [e0 w1 Ha| withAuth w1 e0 w2 Ha Hh Heq
                        | withAuth w1 resp w2 Ha Hh Heq].
    - done.
    - cbn in Ha. simplify_eq/=. rewrite Hhttp in Hh. by simplify_eq/=.
    - cbn in Ha. simplify_eq/=. rewrite Hhttp in Hh. done. }
  assert (call s
          = match AbstractRestTemplate.request_try m u body options s with
            | (inl error, s') =>
                if retrying && is_nullish error then (inl TypeError, s')
                else call_mapAndThrowError error s'
            | (inr resolved, s') => (inr resolved, s')
            end) as ->.
  { destruct retrying; unfold retry_verbs, plain_verbs in Hin;
      repeat (apply elem_of_cons in Hin as [Heq|Hin]; [simplify_eq/=|]);
      try (by apply elem_of_nil in Hin).
    all: first
      [ unfold AbstractRestTemplate.get, AbstractRestTemplate.post,
          AbstractRestTemplate.put, AbstractRestTemplate.patch,
          AbstractRestTemplate.delete;
        by rewrite request_no_budget
      | done ]. }
  rewrite Htry.
  destruct e as [| |ax], retrying; cbn [andb is_nullish];
    eexists _, (_ :: _ :: _); cbn [world trace];
    (split; [cbn; rewrite <- ?app_assoc; reflexivity|]).
  all: repeat split; try done; by eexists.
Qed.

End DefaultService.

(** The default auth hook run twice, on values. *)
Lemma applyAuth_value_idempotent (v : AxiosRequestConfig)
  (ctx : option RequestContext) :
  RestTemplateService.applyAuth_value
    (RestTemplateService.applyAuth_value v ctx) ctx
  = RestTemplateService.applyAuth_value v ctx.
Proof.
  unfold RestTemplateService.applyAuth_value.
  destruct (truthy (ctx ≫= token)) eqn:Htruthy; cbn [negb]; [|done].
  cbn [headers params timeout method url data default from_option id].
  by rewrite !spread_empty_l, insert_insert_eq.
Qed.

(** X8: the default [applyAuth] applied to its own result, in the store the
    first run left, returns a configuration with the same content as the
    first result: the bearer header is not duplicated or nested; with a
    non-empty token each run returns a new object. *)
Theorem applyAuth_twice_same_content (config : loc)
  (ctx : option RequestContext) (σ : Heap) (v : AxiosRequestConfig) :
  config_value σ config = Some v →
  ∃ r1 σ1 r2 σ2,
    RestTemplateService.applyAuth config ctx σ = Some (r1, σ1)
    ∧ RestTemplateService.applyAuth r1 ctx σ1 = Some (r2, σ2)
    ∧ config_value σ1 r1 = Some (RestTemplateService.applyAuth_value v ctx)
    ∧ config_value σ2 r2 = config_value σ1 r1
    ∧ (truthy (ctx ≫= token) = true → r1 ≠ config ∧ r2 ≠ r1 ∧ r2 ≠ config).
Proof.
  intros Hv.
  destruct (applyAuth_value_agrees config ctx σ v Hv)
    as (r1 & σ1 & Hrun1 & Hv1).
  destruct (applyAuth_value_agrees r1 ctx σ1 _ Hv1)
    as (r2 & σ2 & Hrun2 & Hv2).
  exists r1, σ1, r2, σ2. split; [done|]. split; [done|]. split; [done|].
  split; [by rewrite Hv2, applyAuth_value_idempotent|].
  intros Htruthy.
  apply truthy_token in Htruthy as (c & tok & -> & Htok & Hne).
  assert (∀ σ0 l v0 r σ',
            config_value σ0 l = Some v0 →
            RestTemplateService.applyAuth l (Some c) σ0 = Some (r, σ') →
            σ0 !! r = None ∧ ∀ k o, σ0 !! k = Some o → σ' !! k = Some o)
    as Hfresh.
  { intros σ0 l v0 r σ' Hv0 Hrun.
    unfold config_value, read_config in Hv0.
    destruct (σ0 !! l) as [[|cfg]|] eqn:Hcfg; try done.
    cbn [mbind option_bind] in Hv0.
    assert (∃ orig, match o_headers cfg with
                    | Some h => σ0 !! h = Some (ObjHeaders orig)
                    | None => orig = ∅
                    end) as (orig & Hh).
    { destruct (o_headers cfg) as [h|]; [|by exists ∅].
      unfold read_headers in Hv0.
      destruct (σ0 !! h) as [[hs|]|]; simplify_eq/=. by exists hs. }
    destruct (applyAuth_with_token_run l c tok σ0 cfg orig Htok Hne Hcfg Hh)
      as (r' & σ'' & h' & Hrun' & Hr & Hext & _).
    rewrite Hrun' in Hrun. by simplify_eq/=. }
  destruct (Hfresh _ _ _ _ _ Hv Hrun1) as [Hr1 Hext1].
  destruct (Hfresh _ _ _ _ _ Hv1 Hrun2) as [Hr2 Hext2].
  assert (is_Some (σ !! config)) as [o Ho].
  { unfold config_value, read_config in Hv.
    destruct (σ !! config); [by eexists|done]. }
  assert (is_Some (σ1 !! r1)) as [o1 Ho1].
  { unfold config_value, read_config in Hv1.
    destruct (σ1 !! r1); [by eexists|done]. }
  split; [congruence|]. split; [congruence|].
  apply Hext1 in Ho. congruence.
Qed.

(** ** More on query strings *)

Lemma count_char_app (c : ascii) (a b : string) :
  count_char c (a +:+ b) = (count_char c a + count_char c b)%nat.
Proof.
  induction a as [|x a IH]; [done|].
  change (String x a +:+ b) with (String x (a +:+ b)). cbn [count_char].
  rewrite IH. lia.
Qed.

Lemma string_forallb_app (p : ascii → bool) (a b : string) :
  string_forallb p (a +:+ b) = string_forallb p a && string_forallb p b.
Proof.
  induction a as [|x a IH]; [done|].
  change (String x a +:+ b) with (String x (a +:+ b)). cbn [string_forallb].
  by rewrite IH, andb_assoc.
Qed.

Lemma count_char_forallb (p : ascii → bool) (c : ascii) (s : string) :
  string_forallb p s = true → p c = false → count_char c s = 0%nat.
Proof.
  intros Hs Hc. induction s as [|x s IH]; [done|].
  cbn in Hs. apply andb_true_iff in Hs as [Hx Hs]. cbn [count_char].
  rewrite (IH Hs). destruct (Ascii.eqb_spec x c) as [->|_]; [congruence|done].
Qed.

Lemma encode_byte_safe (c : ascii) :
  string_forallb form_safe (URLSearchParams.encode_byte c) = true.
Proof. destruct c as [[] [] [] [] [] [] [] []]; reflexivity. Qed.

Lemma encode_safe (s : string) :
  string_forallb form_safe (URLSearchParams.encode s) = true.
Proof.
  induction s as [|c s IH]; [done|]. cbn [URLSearchParams.encode].
  by rewrite string_forallb_app, encode_byte_safe, IH.
Qed.

Lemma encode_count_unsafe (c : ascii) (s : string) :
  form_safe c = false → count_char c (URLSearchParams.encode s) = 0%nat.
Proof.
  intros Hc. apply (count_char_forallb form_safe); [apply encode_safe|done].
Qed.

Lemma decode_head_encode_byte (c : ascii) (rest : string) :
  decode_head (URLSearchParams.encode_byte c +:+ rest) = Some (c, rest).
Proof. destruct c as [[] [] [] [] [] [] [] []]; reflexivity. Qed.

Lemma encode_inj (s1 s2 : string) :
  URLSearchParams.encode s1 = URLSearchParams.encode s2 → s1 = s2.
Proof.
  revert s2. induction s1 as [|c1 s1 IH]; intros [|c2 s2] Heq;
    cbn [URLSearchParams.encode] in Heq; [done|..].
  - apply (f_equal decode_head) in Heq.
    by rewrite decode_head_encode_byte in Heq.
  - apply (f_equal decode_head) in Heq.
    by rewrite decode_head_encode_byte in Heq.
  - apply (f_equal decode_head) in Heq.
    rewrite !decode_head_encode_byte in Heq.
    injection Heq as -> Heq. by rewrite (IH _ Heq).
Qed.

(** A delimiter that occurs in neither head splits both sides alike. *)
Lemma append_delim_inj (d : ascii) (a1 a2 r1 r2 : string) :
  count_char d a1 = 0%nat → count_char d a2 = 0%nat →
  a1 +:+ String d r1 = a2 +:+ String d r2 → a1 = a2 ∧ r1 = r2.
Proof.
  revert a2. induction a1 as [|x a1 IH]; intros [|y a2] H1 H2 Heq.
  - by injection Heq.
  - change (String d r1 = String y (a2 +:+ String d r2)) in Heq.
    injection Heq as <- _. cbn in H2. by rewrite Ascii.eqb_refl in H2.
  - change (String x (a1 +:+ String d r1) = String d r2) in Heq.
    injection Heq as -> _. cbn in H1. by rewrite Ascii.eqb_refl in H1.
  - change (String x (a1 +:+ String d r1) = String y (a2 +:+ String d r2))
      in Heq.
    injection Heq as -> Heq. cbn in H1, H2.
    destruct (Ascii.eqb y d); [done|].
    destruct (IH a2 H1 H2 Heq) as [-> ->]. done.
Qed.

Lemma encoded_pair_split (p1 p2 : string * string) (x1 x2 : string) :
  pair_tail x1 → pair_tail x2 →
  encoded_pair p1 +:+ x1 = encoded_pair p2 +:+ x2 →
  p1 = p2 ∧ x1 = x2.
Proof.
  destruct p1 as [n1 v1], p2 as [n2 v2]. unfold encoded_pair. cbn [fst snd].
  intros Hx1 Hx2 Heq. rewrite !append_assoc in Heq.
  change ("=" +:+ ?x) with (String "=" x) in Heq.
  apply append_delim_inj in Heq as [Hn Heq];
    [|by apply encode_count_unsafe..].
  apply encode_inj in Hn as ->.
  assert (URLSearchParams.encode v1 = URLSearchParams.encode v2 ∧ x1 = x2)
    as [Hv ->].
  { destruct Hx1 as [->|[r1 ->]], Hx2 as [->|[r2 ->]].
    - by rewrite !append_empty_r in Heq.
    - apply (f_equal (count_char "&")) in Heq.
      rewrite append_empty_r, count_char_app, !encode_count_unsafe in Heq
        by done. done.
    - apply (f_equal (count_char "&")) in Heq.
      rewrite append_empty_r, count_char_app, !encode_count_unsafe in Heq
        by done. done.
    - apply append_delim_inj in Heq as [? ->];
        [done|by apply encode_count_unsafe..]. }
  by apply encode_inj in Hv as ->.
Qed.

Lemma pair_tail_concat (l : list (string * string)) :
  pair_tail (String.concat "" (map (λ p, "&" +:+ encoded_pair p) l)).
Proof.
  destruct l as [|p l]; [by left|]. right.
  rewrite map_cons, concat_empty_cons. by eexists.
Qed.

Lemma ampersand_pairs_inj (l1 l2 : list (string * string)) :
  String.concat "" (map (λ p, "&" +:+ encoded_pair p) l1)
  = String.concat "" (map (λ p, "&" +:+ encoded_pair p) l2) →
  l1 = l2.
Proof.
  revert l2. induction l1 as [|p1 l1 IH]; intros [|p2 l2];
    rewrite ?map_cons, ?concat_empty_cons; [done|done|done|].
  intros Heq.
  change (String "&" (encoded_pair p1 +:+
            String.concat "" (map (λ p, "&" +:+ encoded_pair p) l1))
          = String "&" (encoded_pair p2 +:+
            String.concat "" (map (λ p, "&" +:+ encoded_pair p) l2)))
    in Heq.
  injection Heq as Heq.
  apply encoded_pair_split in Heq as [-> Heq];
    [|apply pair_tail_concat..].
  by rewrite (IH _ Heq).
Qed.

Lemma toString_inj (usp1 usp2 : URLSearchParams.t) :
  URLSearchParams.toString usp1 = URLSearchParams.toString usp2 →
  usp1 = usp2.
Proof.
  rewrite !toString_concat.
  destruct usp1 as [|p1 l1], usp2 as [|p2 l2];
    rewrite ?map_cons, ?concat_sep_cons, ?map_map; [done|..].
  - intros Heq. symmetry in Heq. cbn in Heq.
    apply (f_equal (count_char "=")) in Heq.
    unfold encoded_pair in Heq. rewrite !count_char_app in Heq.
    cbn in Heq. lia.
  - intros Heq. cbn in Heq.
    apply (f_equal (count_char "=")) in Heq.
    unfold encoded_pair in Heq. rewrite !count_char_app in Heq.
    cbn in Heq. lia.
  - intros Heq.
    apply encoded_pair_split in Heq as [-> Heq];
      [|apply pair_tail_concat..].
    by rewrite (ampersand_pairs_inj _ _ Heq).
Qed.

Lemma includes_app_l (a b sub : string) :
  includes a sub = true → includes (a +:+ b) sub = true.
Proof.
  rewrite !includes_spec. intros (pre & post & ->).
  exists pre, (post +:+ b). by rewrite !append_assoc.
Qed.

Lemma includes_middle (a b sub : string) :
  includes (a +:+ sub +:+ b) sub = true.
Proof. apply includes_spec. by exists a, b. Qed.

Lemma concat_sep_app (l1 l2 : list string) :
  l1 ≠ [] → l2 ≠ [] →
  String.concat "&" (l1 ++ l2)
  = String.concat "&" l1 +:+ "&" +:+ String.concat "&" l2.
Proof.
  intros H1 H2. destruct l1 as [|x l1]; [done|]. clear H1.
  destruct l2 as [|y l2]; [done|]. clear H2.
  rewrite <- app_comm_cons, !concat_sep_cons, map_app, map_cons.
  rewrite append_assoc. f_equal.
  induction l1 as [|z l1 IH]; cbn [app map].
  - by rewrite concat_empty_cons, append_assoc.
  - by rewrite !concat_empty_cons, IH, !append_assoc.
Qed.

Lemma length_append (a b : string) :
  String.length (a +:+ b) = (String.length a + String.length b)%nat.
Proof.
  induction a as [|x a IH]; [done|].
  change (String x a +:+ b) with (String x (a +:+ b)). cbn. by rewrite IH.
Qed.

Lemma count_char_ampersand_pairs (c : ascii) (l : list (string * string)) :
  form_safe c = false →
  count_char c (String.concat "" (map (λ p, "&" +:+ encoded_pair p) l))
  = (((if Ascii.eqb "&" c then 1 else 0)
      + (if Ascii.eqb "=" c then 1 else 0)) * List.length l)%nat.
Proof.
  intros Hc. induction l as [|p l IH]; [done|].
  rewrite map_cons, concat_empty_cons, !count_char_app, IH.
  unfold encoded_pair.
  rewrite !count_char_app, !encode_count_unsafe by done.
  cbn [count_char List.length]. lia.
Qed.

Lemma count_char_query (c : ascii) (p : string * string)
  (l : list (string * string)) :
  form_safe c = false →
  count_char c (String.concat "&" (map encoded_pair (p :: l)))
  = ((if Ascii.eqb "=" c then 1 else 0) * S (List.length l)
     + (if Ascii.eqb "&" c then 1 else 0) * List.length l)%nat.
Proof.
  intros Hc.
  rewrite map_cons, concat_sep_cons, map_map, count_char_app,
    count_char_ampersand_pairs by done.
  unfold encoded_pair.
  rewrite !count_char_app, !encode_count_unsafe by done.
  cbn [count_char]. lia.
Qed.

Section BuildUrlMore.
Context {Num : Type} (Number_toString : Num → string).

(** The result for a mapping with entries, in one piece. *)
Lemma buildUrl_with_entries (url : string)
  (entries : list (string * QueryValue Num)) :
  entries ≠ [] →
  buildUrl Number_toString url (Some entries)
  = url +:+ (if includes url "?" then "&" else "?")
        +:+ String.concat "&"
              (map encoded_pair (map (stringified Number_toString) entries)).
Proof.
  intros Hne. unfold buildUrl.
  destruct (decide (List.length (List.map fst entries) = 0%nat)) as [Hlen|_].
  { by destruct entries. }
  cbn zeta. rewrite entries_appended, toString_concat.
  unfold URLSearchParams.new. cbn [app].
  do 4 f_equal. apply map_ext. by intros [k v].
Qed.

(** X9: appending two mappings one after the other gives the URL that
    appending their entries in one call gives. *)
Theorem buildUrl_composes (url : string)
  (p1 p2 : list (string * QueryValue Num)) :
  buildUrl Number_toString (buildUrl Number_toString url (Some p1)) (Some p2)
  = buildUrl Number_toString url (Some (p1 ++ p2)%list).
Proof.
  destruct p1 as [|e1 p1]; [done|].
  destruct p2 as [|e2 p2].
  { by rewrite app_nil_r. }
  rewrite (buildUrl_with_entries url (e1 :: p1)) by done.
  rewrite (buildUrl_with_entries url ((e1 :: p1) ++ e2 :: p2)%list) by done.
  rewrite buildUrl_with_entries by done.
  rewrite !map_app, concat_sep_app by done.
  assert (includes
            (url +:+ (if includes url "?" then "&" else "?")
                 +:+ String.concat "&"
                       (map encoded_pair
                          (map (stringified Number_toString) (e1 :: p1))))
            "?" = true) as ->.
  { destruct (includes url "?") eqn:Hq.
    - by apply includes_app_l.
    - apply includes_middle. }
  by rewrite !append_assoc.
Qed.

Lemma buildUrl_with_entries_longer (url : string)
  (e : string * QueryValue Num) (es : list (string * QueryValue Num)) :
  (String.length url
   < String.length (buildUrl Number_toString url (Some (e :: es))))%nat.
Proof.
  rewrite buildUrl_with_entries by done. rewrite !length_append.
  destruct (includes url "?"); cbn; lia.
Qed.

(** X10: [buildUrl] returns the URL itself exactly when there is nothing
    to append: the mapping is absent or has no entry.  With entries the
    result is strictly longer. *)
Theorem buildUrl_unchanged_iff (url : string)
  (params : option (list (string * QueryValue Num))) :
  buildUrl Number_toString url params = url
  ↔ params = None ∨ params = Some [].
Proof.
  split; [|by intros [->| ->]].
  destruct params as [[|e es]|]; [by right| |by left].
  intros Heq. pose proof (buildUrl_with_entries_longer url e es) as Hlt.
  rewrite Heq in Hlt. lia.
Qed.

(** X11: in the query that [buildUrl] appends, whatever characters the
    names and values contain, an equals sign occurs once per entry and an
    ampersand once between two entries, and there is no question mark, no
    hash sign and no space. *)
Theorem buildUrl_query_delimiters (url : string)
  (e : string * QueryValue Num) (es : list (string * QueryValue Num)) :
  ∃ q,
    buildUrl Number_toString url (Some (e :: es))
    = url +:+ (if includes url "?" then "&" else "?") +:+ q
    ∧ count_char "=" q = S (List.length es)
    ∧ count_char "&" q = List.length es
    ∧ count_char "?" q = 0%nat
    ∧ count_char "#" q = 0%nat
    ∧ count_char " " q = 0%nat.
Proof.
  eexists. split; [by apply buildUrl_with_entries|].
  change (map (stringified Number_toString) (e :: es))
    with (stringified Number_toString e
          :: map (stringified Number_toString) es).
  rewrite !count_char_query by done.
  rewrite !length_map. cbn. repeat split; lia.
Qed.

(** X12: two mappings that give the same URL have the same entries, in the
    same order, as [URLSearchParams] takes them: the names and the string
    forms of the values after the conversion to well-formed Unicode, as
    byte sequences.  (On JavaScript strings themselves [buildUrl] is not
    injective: a name that is a lone surrogate and the name U+FFFD are
    written alike.) *)
Theorem buildUrl_injective (url : string)
  (p1 p2 : list (string * QueryValue Num)) :
  buildUrl Number_toString url (Some p1)
  = buildUrl Number_toString url (Some p2) →
  map (stringified Number_toString) p1 = map (stringified Number_toString) p2.
Proof.
  intros Heq.
  destruct p1 as [|e1 p1], p2 as [|e2 p2]; [done|..].
  - pose proof (buildUrl_with_entries_longer url e2 p2) as Hlt.
    rewrite <- Heq in Hlt.
    change (buildUrl Number_toString url (Some [])) with url in Hlt. lia.
  - pose proof (buildUrl_with_entries_longer url e1 p1) as Hlt.
    rewrite Heq in Hlt.
    change (buildUrl Number_toString url (Some [])) with url in Hlt. lia.
  - rewrite !buildUrl_with_entries in Heq by done.
    apply (inj (String.append url)) in Heq.
    apply (inj (String.append _)) in Heq.
    rewrite <- !toString_concat in Heq. by apply toString_inj.
Qed.

End BuildUrlMore.

(** ** Argument checks *)

Lemma trimStart_nil_iff (s : list N) :
  trimStart s = [] ↔ forallb is_white_space s = true.
Proof.
  induction s as [|c s IH]; [done|]. cbn.
  destruct (is_white_space c); [done|]. by split.
Qed.

Lemma trimStart_head (s : list N) :
  trimStart s = []
  ∨ ∃ c rest, trimStart s = c :: rest ∧ is_white_space c = false.
Proof.
  induction s as [|c s IH]; [by left|]. cbn.
  destruct (is_white_space c) eqn:Hc; [done|]. right. by exists c, s.
Qed.

Lemma trim_nil_iff (s : list N) :
  trim s = [] ↔ forallb is_white_space s = true.
Proof.
  unfold trim, trimEnd. rewrite <- trimStart_nil_iff.
  destruct (trimStart_head s) as [->|(c & rest & -> & Hc)]; [done|].
  split; [|done]. intros Hnil. exfalso.
  apply (f_equal (@rev N)) in Hnil. rewrite rev_involutive in Hnil.
  cbn [rev] in Hnil. apply trimStart_nil_iff in Hnil.
  rewrite forallb_app in Hnil. cbn in Hnil. rewrite Hc in Hnil.
  by rewrite andb_false_r in Hnil.
Qed.

(** X13: [assertNonEmpty] throws exactly when the value is empty or made
    of white space only (blanks, tabs, line breaks, and the other Unicode
    spaces of [trim]), wherever that white space sits; the error's message
    is the label followed by " must be a non-empty string"; otherwise it
    returns without a value. *)
Theorem assertNonEmpty_throws_iff_blank (value : list N) (label : string) :
  assertNonEmpty value label
  = if forallb is_white_space value
    then inl {| error_message := label +:+ " must be a non-empty string" |}
    else inr tt.
Proof.
  unfold assertNonEmpty.
  destruct (forallb is_white_space value) eqn:Hws.
  - apply trim_nil_iff in Hws as ->. by rewrite orb_true_r.
  - destruct value as [|c value]; [done|]. cbn [orb].
    destruct (trim (c :: value)) eqn:Htrim; [|done].
    apply trim_nil_iff in Htrim. congruence.
Qed.

(** The examples of the specification: [""] and ["   "] are refused,
    ["ok"] and [" ok "] pass. *)
Example assertNonEmpty_examples :
  assertNonEmpty [] "Name"
  = inl {| error_message := "Name must be a non-empty string" |}
  ∧ assertNonEmpty [32; 32; 32]%N "Name"
    = inl {| error_message := "Name must be a non-empty string" |}
  ∧ assertNonEmpty [111; 107]%N "Name" = inr tt
  ∧ assertNonEmpty [32; 111; 107; 32]%N "Name" = inr tt.
Proof. by vm_compute. Qed.

(** ** The response mode only selects what is returned *)
Section ResponseModes.
Context {W Exn : Type} `{!RestTemplate W Exn}.

Lemma request_try_body_of m u b (o : RestRequestOption)
  (mode : option ResponseMode) (s : PState W) :
  mode ≠ Some ResponseMode_full →
  AbstractRestTemplate.request_try m u b (Some (with_responseMode o mode)) s
  = outcome_map body_of
      (AbstractRestTemplate.request_try m u b
         (Some (with_responseMode o (Some ResponseMode_full))) s).
Proof.
  intros Hmode.
  unfold AbstractRestTemplate.request_try, await_applyAuth,
    await_axios_request, task_bind, record_call, run_on_world, task_ret,
    outcome_map.
  cbn [world trace mbind option_bind context responseMode with_responseMode
       default from_option id].
  change (AbstractRestTemplate.buildBaseConfig
            (Some (with_responseMode o mode)))
    with (AbstractRestTemplate.buildBaseConfig
            (Some (with_responseMode o (Some ResponseMode_full)))).
  destruct (applyAuth _ _ (world s)) as [[e|withAuth] w1]; [done|].
  cbn [world trace].
  destruct (http_request _ w1) as [[e|resp] w2]; [done|].
  cbn [fst snd body_of].
  destruct (decide (ResponseMode_full = ResponseMode_full)); [|done].
  by destruct mode as [[]|].
Qed.

(** X14: a run that asks for the body only (or sets no response mode)
    makes the same calls, leaves the same state and raises the same
    exception as the run that asks for the full response, and when that
    run resolves to an envelope it resolves to the envelope's data. *)
Theorem request_body_is_data_of_full m u b (o : RestRequestOption)
  (mode : option ResponseMode) arg (s : PState W) :
  mode ≠ Some ResponseMode_full →
  AbstractRestTemplate.request m u b (Some (with_responseMode o mode)) arg s
  = outcome_map body_of
      (AbstractRestTemplate.request m u b
         (Some (with_responseMode o (Some ResponseMode_full))) arg s).
Proof.
  intros Hmode.
  remember (Z.to_nat (default 0 arg)) as n eqn:Hn.
  revert arg s Hn. induction n as [|n IH]; intros arg s Hn;
    rewrite !request_run, (request_try_body_of _ _ _ _ _ _ Hmode);
    unfold outcome_map at 1;
    destruct (AbstractRestTemplate.request_try m u b
                (Some (with_responseMode o (Some ResponseMode_full))) s)
      as [[e|r] s']; cbn [fst snd]; try done.
  - destruct (is_nullish e); [done|].
    destruct (decide _) as [[_ Hpos]|_]; [lia|].
    destruct (call_mapAndThrowError_raises (A := Resolved) e s')
      as (exn & _ & ->). done.
  - destruct (is_nullish e); [done|].
    destruct (decide _) as [[_ Hpos]|_].
    + apply IH. cbn. lia.
    + destruct (call_mapAndThrowError_raises (A := Resolved) e s')
        as (exn & _ & ->). done.
Qed.

End ResponseModes.

(** ** Names and values that need no escaping *)

Lemma encode_unescaped (s : string) :
  string_forallb URLSearchParams.unescaped s = true →
  URLSearchParams.encode s = s.
Proof.
  induction s as [|c s IH]; [done|]. cbn [string_forallb].
  intros [Hc Hs]%andb_true_iff. cbn [URLSearchParams.encode].
  rewrite (IH Hs). unfold URLSearchParams.encode_byte. rewrite Hc.
  destruct (N_of_ascii c =? 32)%N eqn:H32; [|done].
  apply N.eqb_eq in H32. unfold URLSearchParams.unescaped in Hc.
  rewrite H32 in Hc. done.
Qed.

(** X15: when every name and every string form of a value consists of
    ASCII letters, digits and the characters [* - . _], [buildUrl] appends
    the pairs [name=value] as they are, joined by [&]. *)
Theorem buildUrl_verbatim {Num : Type} (Number_toString : Num → string)
  (url : string) (e : string * QueryValue Num)
  (es : list (string * QueryValue Num)) :
  Forall (λ p, string_forallb URLSearchParams.unescaped p.1 = true
               ∧ string_forallb URLSearchParams.unescaped p.2 = true)
         (map (stringified Number_toString) (e :: es)) →
  buildUrl Number_toString url (Some (e :: es))
  = url +:+ (if includes url "?" then "&" else "?")
        +:+ String.concat "&"
              (map (λ p, p.1 +:+ "=" +:+ p.2)
                   (map (stringified Number_toString) (e :: es))).
Proof.
  intros Hsafe. rewrite buildUrl_with_entries by done. do 3 f_equal.
  induction Hsafe as [|p l [Hn Hv] _ IH]; [done|]. cbn [map].
  rewrite IH. unfold encoded_pair. by rewrite !encode_unescaped.
Qed.

(** ** Header names of the base configuration *)
Section BaseHeaders.
Context {W Exn : Type} `{!RestTemplate W Exn}.

(** X16: the headers of the base configuration have exactly the names of
    the default headers and of the per-call headers: a per-call header can
    replace a default header, never remove one; this holds for both
    templates. *)
Theorem buildBaseConfig_header_names (options : option RestRequestOption) :
  ∃ merged : Headers,
    headers (AbstractRestTemplate.buildBaseConfig options) = Some merged
    ∧ headers (AbstractRestTemplatePlain.buildBaseConfig options)
      = Some merged
    ∧ dom merged
      = dom getDefaultHeaders ∪ dom (default ∅ (options ≫= opt_headers)).
Proof.
  eexists. split; [reflexivity|]. split; [reflexivity|].
  apply set_eq. intros k.
  rewrite elem_of_union, !elem_of_dom, spread_lookup.
  destruct (default ∅ (options ≫= opt_headers) !! k) as [v|] eqn:Hk;
    cbn [nullish].
  - split; [intros _; right|]; eauto.
  - split; [by left|]. intros [?|[? [=]]]. done.
Qed.

End BaseHeaders.

(** ** Instances of the further properties *)

Lemma request_uses_up_budget_witness :
  ∃ added exn,
    (AbstractRestTemplate.request (RestTemplate0 := refused_service)
       "GET" "https://x/y" None None (Some 2) refused_start).1 = inl exn
    ∧ trace (AbstractRestTemplate.request (RestTemplate0 := refused_service)
               "GET" "https://x/y" None None (Some 2) refused_start).2
      = (trace refused_start ++ added)%list
    ∧ auth_calls added = 3%nat
    ∧ transport_attempts added = 3%nat
    ∧ mapper_calls added = 1%nat.
Proof.
  apply (request_uses_up_budget (RestTemplate0 := refused_service)
           "GET" "https://x/y" None None (Some 2) refused_start).
  - intros cfg ctx w. eexists _, _. reflexivity.
  - intros cfg w. eexists _, _. split; reflexivity.
Defined.

Lemma request_retries_auth_failures_witness :
  ∃ added exn,
    (AbstractRestTemplate.request (RestTemplate0 := auth_refused_template)
       "GET" "https://x/y" None None (Some 1) idle).1 = inl exn
    ∧ trace (AbstractRestTemplate.request
               (RestTemplate0 := auth_refused_template)
               "GET" "https://x/y" None None (Some 1) idle).2
      = (trace idle ++ added)%list
    ∧ auth_calls added = 2%nat
    ∧ transport_attempts added = 0%nat
    ∧ mapper_calls added = 1%nat.
Proof.
  apply (request_retries_auth_failures
           (RestTemplate0 := auth_refused_template)
           "GET" "https://x/y" None None (Some 1) idle).
  intros cfg ctx w. eexists _, _. split; reflexivity.
Defined.

Lemma default_service_verbs_translate_failure_witness :
  ∃ exn added,
    AbstractRestTemplate.get "https://x/y" None unauthorized_twice
    = (inl exn,
       mkPState [inl upstreamError] (trace unauthorized_twice ++ added))
    ∧ RestTemplateService.mapAndThrowError upstreamError = inl exn
    ∧ transport_attempts added = 1%nat
    ∧ ∃ httpException,
        exn = ThrownHttpException httpException
        ∧ getStatus httpException = 401
        ∧ mapper_calls added = 1%nat.
Proof.
  apply (default_service_verbs_translate_failure scripted_request
           "https://x/y" None None unauthorized_twice true
           "GET" None (AbstractRestTemplate.get "https://x/y" None)
           upstreamError [inl upstreamError]).
  - apply list_elem_of_here.
  - reflexivity.
Defined.

Lemma applyAuth_twice_same_content_witness :
  ∃ r1 σ1 r2 σ2,
    RestTemplateService.applyAuth 1%positive (Some context_with_token)
                                  test_store = Some (r1, σ1)
    ∧ RestTemplateService.applyAuth r1 (Some context_with_token) σ1
      = Some (r2, σ2)
    ∧ config_value σ1 r1
      = Some (RestTemplateService.applyAuth_value
                test_config_value (Some context_with_token))
    ∧ config_value σ2 r2 = config_value σ1 r1
    ∧ (truthy (Some context_with_token ≫= token) = true →
       r1 ≠ 1%positive ∧ r2 ≠ r1 ∧ r2 ≠ 1%positive).
Proof.
  apply (applyAuth_twice_same_content
           1%positive (Some context_with_token) test_store
           test_config_value).
  reflexivity.
Defined.

Lemma buildUrl_injective_witness :
  map (stringified (pretty : Z → string)) [("a", QNumber 1)]
  = map (stringified (pretty : Z → string)) [("a", QString "1")].
Proof.
  apply (buildUrl_injective (pretty : Z → string) "https://x/y"
           [("a", QNumber 1)] [("a", QString "1")]).
  reflexivity.
Defined.

Lemma request_body_is_data_of_full_witness :
  AbstractRestTemplate.request "GET" "https://x/y" None
    (Some (with_responseMode full_response_options None)) None answering
  = outcome_map body_of
      (AbstractRestTemplate.request "GET" "https://x/y" None
         (Some (with_responseMode full_response_options
                  (Some ResponseMode_full))) None answering).
Proof.
  apply (request_body_is_data_of_full
           "GET" "https://x/y" None full_response_options None None
           answering).
  discriminate.
Defined.

Lemma buildUrl_verbatim_witness :
  buildUrl (pretty : Z → string) "https://x/y"
    (Some [("a", QNumber 1); ("b", QBoolean true)])
  = "https://x/y" +:+ (if includes "https://x/y" "?" then "&" else "?")
      +:+ String.concat "&"
            (map (λ p : string * string, p.1 +:+ "=" +:+ p.2)
                 (map (stringified (pretty : Z → string))
                      [("a", QNumber 1); ("b", QBoolean true)])).
Proof.
  apply (buildUrl_verbatim (pretty : Z → string) "https://x/y"
           ("a", QNumber 1) [("b", QBoolean true)]).
  repeat constructor.
Defined.
